(** * OneBox provisioning script: retrying fetcher, binary installer, orchestrator

    Shallow embedding of the download script kept in the second half of
    [src/components/home/body.tsx]: [downloadFile], [extractFile],
    [embeddingExternalBinaries], [downloadEmbeddingExternalBinaries],
    [downloadDatabaseFiles] and the top-level orchestration.

    Modelling decisions.
    - The file system is a finite map from paths to nodes.  A path is the
      list of its segments: the source's ['src-tauri/binaries/x'] is
      [["src-tauri"; "binaries"; "x"]], [path.join] is list append and
      [path.dirname] drops the last segment.
    - An [async] function is a resumable computation ([coro]): it runs
      synchronously up to its next [await], where it is parked with the world
      as it is then; whoever resumes it passes the world as it is at that
      later time.  This is the run-to-completion semantics of the JavaScript
      event loop; tasks interleave at [await]s only.
    - The network, the archive libraries, the clock and the random source are
      the environment ([env]); the order in which parked tasks are resumed is
      a schedule given from outside.
    - File-system calls succeed, except [renameSync] on a missing source and
      the extraction of an archive that is not there; a destination that
      cannot be opened or written is one of the ways a body stream breaks.
    - Numbers are integers ([Z]); elapsed-time figures (floating point) are
      left out of the console lines. *)

From Stdlib Require Import ZArith Ascii DecimalString.
From stdpp Require Import base strings list gmap.

Local Open Scope string_scope.
Local Open Scope Z_scope.
Local Open Scope list_scope.

(** ** Data *)

(** A JavaScript [Error]; only its message is observed by the script. *)
Record Error := mkError { message : string }.

#[global] Instance Error_eq_dec : EqDecision Error.
Proof. solve_decision. Defined.

Abbreviation path := (list string).
Abbreviation content := string.

Inductive node :=
| File (data : content)
| Dir.

#[global] Instance node_eq_dec : EqDecision node.
Proof. solve_decision. Defined.

Inductive Platform := darwin | linux | windows.
Inductive Architecture := arm64 | amd64.

#[global] Instance Platform_eq_dec : EqDecision Platform.
Proof. solve_decision. Defined.
#[global] Instance Architecture_eq_dec : EqDecision Architecture.
Proof. solve_decision. Defined.

Definition platform_name (p : Platform) : string :=
  match p with darwin => "darwin" | linux => "linux" | windows => "windows" end.

Definition arch_name (a : Architecture) : string :=
  match a with arm64 => "arm64" | amd64 => "amd64" end.

(** What the transport does with one request.  [fetch] either rejects
    (network error, or the abort fired by the 60 s timer), or yields a
    response; a response body is a stream that delivers [delivered] to its
    consumer and then ends, normally or with [broke]. *)
Record body_stream := Body { delivered : content; broke : option Error }.

Inductive net_outcome :=
| FetchRejects (e : Error)
| Response (ok : bool) (status : Z) (body : option body_stream).

(** What an archive library does with an archive: the entries it has written
    below the output directory (relative paths) and, when it fails, the error
    it raises after writing them. *)
Record unpacked := Unpacked { entries : list (path * node); failed : option Error }.

Inductive console_level := Log | Warn | Err.

Inductive event :=
| EvConsole (lvl : console_level) (text : string)
| EvIncludes (version : string) (found : bool)
| EvFetch (url : string).

#[global] Instance console_level_eq_dec : EqDecision console_level.
Proof. solve_decision. Defined.
#[global] Instance event_eq_dec : EqDecision event.
Proof. solve_decision. Defined.

Record world := World { fs : gmap path node; trace : list event }.

(** The environment of one run of the script. *)
Record env := Env {
  (** [SING_BOX_VERSION], imported from [../src/types/definition]. *)
  SING_BOX_VERSION : string;
  (** [__dirname] of the script. *)
  dirname__ : path;
  (** [`${Date.now()}-${Math.random().toString(36).substring(7)}`], as
      evaluated by the task of the given target. *)
  unique_suffix : Platform -> Architecture -> string;
  (** The outcome of the [attempt]-th request for [url]. *)
  transport : string -> Z -> net_outcome;
  (** [unzipper.Extract] and [tar.x] on the bytes of an archive. *)
  unzip : content -> unpacked;
  untar : content -> unpacked;
}.

(** ** Asynchronous computations *)

Inductive await_kind :=
| OnFetch (url : string)
| OnPipeline (dest : path)
| OnTimer (ms : Z)
| OnExtract (file : path)
| OnAll.

Inductive coro (A : Type) : Type :=
| Settled (r : Error + A) (w : world)
| Pending (a : await_kind) (w : world) (k : world -> coro A).
Arguments Settled {A} r w.
Arguments Pending {A} a w k.

Definition async (A : Type) : Type := world -> coro A.

Definition ret {A} (a : A) : async A := fun w => Settled (inr a) w.
Definition throw {A} (e : Error) : async A := fun w => Settled (inl e) w.

Fixpoint bind_co {A B} (c : coro A) (f : A -> async B) : coro B :=
  match c with
  | Settled (inr a) w => f a w
  | Settled (inl e) w => Settled (inl e) w
  | Pending a w k => Pending a w (fun w' => bind_co (k w') f)
  end.

Fixpoint catch_co {A} (c : coro A) (h : Error -> async A) : coro A :=
  match c with
  | Settled (inr a) w => Settled (inr a) w
  | Settled (inl e) w => h e w
  | Pending a w k => Pending a w (fun w' => catch_co (k w') h)
  end.

Definition bind {A B} (m : async A) (f : A -> async B) : async B :=
  fun w => bind_co (m w) f.

Notation "'let!' x ':=' m 'in' k" := (bind m (fun x => k))
  (at level 10, x name, m at level 100, k at level 200).
Notation "m ;; k" := (bind m (fun _ => k))
  (at level 100, k at level 200, right associativity).

(** [try { m } catch (error) { h error }] *)
Definition try_catch {A} (m : async A) (h : Error -> async A) : async A :=
  fun w => catch_co (m w) h.

(** The suspension of an [await] on something the environment completes. *)
Definition suspend (a : await_kind) : async unit :=
  fun w => Pending a w (fun w' => Settled (inr tt) w').

(** Synchronous effects. *)
Definition emit (e : event) : async unit :=
  fun w => Settled (inr tt) (World (fs w) (trace w ++ [e])).
Definition console (lvl : console_level) (text : string) : async unit :=
  emit (EvConsole lvl text).
Definition put_fs (m : gmap path node) : async unit :=
  fun w => Settled (inr tt) (World m (trace w)).

(** Running a computation with nothing else touching the world: every
    [await] resumes on the world it was parked with. *)
Fixpoint run {A} (c : coro A) : (Error + A) * world :=
  match c with
  | Settled r w => (r, w)
  | Pending _ w k => run (k w)
  end.

(** The suspensions such a run goes through, with the world at each. *)
Fixpoint awaits {A} (c : coro A) : list (await_kind * world) :=
  match c with
  | Settled _ _ => []
  | Pending a w k => (a, w) :: awaits (k w)
  end.

(** ** File-system primitives *)

Definition existsSync (p : path) : async bool :=
  fun w => Settled (inr (bool_decide (is_Some (fs w !! p)))) w.

Definition unlinkSync (p : path) : async unit :=
  fun w => put_fs (delete p (fs w)) w.

(** The non-empty prefixes of a path: the directories [mkdir -p] visits. *)
Fixpoint ancestors_and_self (p : path) : list path :=
  match p with
  | [] => []
  | s :: p' => [s] :: (cons s <$> ancestors_and_self p')
  end.

Definition mkdir_one (m : gmap path node) (d : path) : gmap path node :=
  match m !! d with Some _ => m | None => <[d := Dir]> m end.

(** [fs.mkdirSync(p, { recursive: true })] *)
Definition mkdirSync_recursive (p : path) : async unit :=
  fun w => put_fs (foldl mkdir_one (fs w) (ancestors_and_self p)) w.

(** [!fs.existsSync(d) && fs.mkdirSync(d, { recursive: true })] *)
Definition ensure_dir (d : path) : async unit :=
  let! b := existsSync d in if b then ret tt else mkdirSync_recursive d.

Definition dirname (p : path) : path := removelast p.

(** [fs.renameSync(src, dst)]: the entry at [src] moves to [dst]; a missing
    source raises.  (The script only ever moves a regular file.) *)
Definition renameSync (src dst : path) : async unit :=
  fun w =>
    match fs w !! src with
    | None => throw (mkError "ENOENT: no such file or directory, rename") w
    | Some n => put_fs (<[dst := n]> (delete src (fs w))) w
    end.

(** [fs.rmSync(d, { recursive: true, force: true })] *)
Definition rmSync_recursive (d : path) : async unit :=
  fun w => put_fs (filter (λ kv : path * node, ¬ d `prefix_of` kv.1) (fs w)) w.

(** ** Numbers in template strings *)

Definition string_of_Z (z : Z) : string := NilZero.string_of_int (Z.to_int z).

(** [s.substring(start)] *)
Fixpoint substring_from (start : nat) (s : string) : string :=
  match start, s with
  | O, _ => s
  | S n, String _ r => substring_from n r
  | S _, EmptyString => EmptyString
  end.

(** ** Constants of the script *)

Definition BINARY_NAME : string := "sing-box".
Definition GITHUB_RELEASE_URL : string :=
  "https://github.com/caocaocc/sing-box/releases/download/".
Definition SYSPROXY_URL : string :=
  "https://github.com/clash-verge-rev/sysproxy/releases/download/x64/sysproxy.exe".

Definition SkipVersionList : list string := ["v1.12.5"].

(** [Object.entries] of the table, in insertion order. *)
Definition RUST_TARGET_TRIPLES : list (Platform * list (Architecture * string)) :=
  [ (darwin,  [ (arm64, "aarch64-apple-darwin"); (amd64, "x86_64-apple-darwin") ]);
    (linux,   [ (amd64, "x86_64-unknown-linux-gnu"); (arm64, "aarch64-unknown-linux-gnu") ]);
    (windows, [ (amd64, "x86_64-pc-windows-msvc") ]) ].

Definition dbFiles : list (string * string) :=
  [ ("mixed-cache-rule-v1.db",
     "https://github.com/caocaocc/conf-template/raw/refs/heads/stable/database/1.12/zh-cn/mixed-cache-rule-v1.db");
    ("tun-cache-rule-v1.db",
     "https://github.com/caocaocc/conf-template/raw/refs/heads/stable/database/1.12/zh-cn/tun-cache-rule-v1.db") ].

Section Script.
Context (E : env).

(** ** [downloadFile] *)

(** [await streamPipeline(response.body, createWriteStream(dest))]: the
    destination is created or truncated and receives what the stream
    delivers; the call rejects when the stream breaks. *)
Definition streamPipeline (b : body_stream) (dest : path) : async unit :=
  suspend (OnPipeline dest) ;;
  (fun w => put_fs (<[dest := File (delivered b)]> (fs w)) w) ;;
  match broke b with
  | Some e => throw e
  | None => ret tt
  end.

(** The [try] block of one iteration.  The abort timer of 60 s is part of
    what the transport does: a request it cuts off is a [fetch] that
    rejects. *)
Definition downloadFile_try (url : string) (dest : path) (attempt : Z) : async unit :=
  emit (EvFetch url) ;;
  suspend (OnFetch url) ;;
  match transport E url attempt with
  | FetchRejects e => throw e
  | Response ok status body =>
      if negb ok then
        throw (mkError ("Download failed: '" +:+ url +:+ "' (" +:+ string_of_Z status +:+ ")"))
      else
        match body with
        | None => throw (mkError "Response body is empty")
        | Some b => streamPipeline b dest
        end
  end.

(** The [catch] block of one iteration. *)
Definition downloadFile_catch (url : string) (dest : path) (maxRetries attempt : Z)
    (lastError : Error) : async unit :=
  let! present := existsSync dest in
  (if present then unlinkSync dest else ret tt) ;;
  if attempt <? maxRetries then
    let waitTime := attempt * 1000 in
    console Warn ("Download attempt " +:+ string_of_Z attempt +:+ " failed for '" +:+ url
                  +:+ "': " +:+ message lastError +:+ ". Retrying in "
                  +:+ string_of_Z waitTime +:+ "ms...") ;;
    suspend (OnTimer waitTime)
  else ret tt.

(** [`${lastError?.message}`] *)
Definition last_message (lastError : option Error) : string :=
  match lastError with
  | Some e => message e
  | None => "undefined"
  end.

Definition exhausted (url : string) (maxRetries : Z) (lastError : option Error) : Error :=
  mkError ("Download failed after " +:+ string_of_Z maxRetries +:+ " attempts: '" +:+ url
           +:+ "'. Last error: " +:+ last_message lastError).

(** One iteration of the loop body: [None] when the [try] block reached its
    [return], otherwise the error the [catch] block stored in [lastError]. *)
Definition downloadFile_iteration (url : string) (dest : path) (maxRetries attempt : Z)
    : async (option Error) :=
  try_catch (downloadFile_try url dest attempt ;; ret None)
            (fun error => downloadFile_catch url dest maxRetries attempt error ;;
                          ret (Some error)).

(** The [for] loop; [remaining] counts the iterations still allowed by
    [attempt <= maxRetries]. *)
Fixpoint downloadFile_loop (remaining : nat) (url : string) (dest : path)
    (maxRetries attempt : Z) (lastError : option Error) : async unit :=
  match remaining with
  | O => throw (exhausted url maxRetries lastError)
  | S remaining' =>
      let! caught := downloadFile_iteration url dest maxRetries attempt in
      match caught with
      | None => ret tt
      | Some error =>
          downloadFile_loop remaining' url dest maxRetries (attempt + 1) (Some error)
      end
  end.

Definition downloadFile (url : string) (dest : path) (maxRetries : Z) : async unit :=
  downloadFile_loop (Z.to_nat maxRetries) url dest maxRetries 1 None.

(** ** [extractFile] *)

Definition write_entries (tmpDir : path) (m : gmap path node)
    (es : list (path * node)) : gmap path node :=
  foldl (fun m' e => <[tmpDir ++ e.1 := e.2]> m') m es.

Definition extractFile (filePath : path) (fileExtension : string) (tmpDir : path)
    : async unit :=
  suspend (OnExtract filePath) ;;
  fun w =>
    match fs w !! filePath with
    | Some (File data) =>
        let u := if String.eqb fileExtension "zip" then unzip E data else untar E data in
        (put_fs (write_entries tmpDir (fs w) (entries u)) ;;
         match failed u with
         | Some e => throw e
         | None => ret tt
         end) w
    | _ => throw (mkError "ENOENT: no such file or directory, open") w
    end.

(** ** [embeddingExternalBinaries] *)

Definition fileExtension_of (platform : Platform) : string :=
  if decide (platform = windows) then "zip" else "tar.gz".

Definition downloadUrl_of (platform : Platform) (arch : Architecture) : string :=
  GITHUB_RELEASE_URL +:+ SING_BOX_VERSION E +:+ "/" +:+ BINARY_NAME +:+ "-"
  +:+ substring_from 1 (SING_BOX_VERSION E) +:+ "-" +:+ platform_name platform +:+ "-"
  +:+ arch_name arch +:+ "." +:+ fileExtension_of platform.

Definition tmpDir_of (platform : Platform) (arch : Architecture) : path :=
  dirname__ E ++ ["tmp"; platform_name platform +:+ "-" +:+ arch_name arch +:+ "-"
                         +:+ unique_suffix E platform arch].

Definition embeddingExternalBinaries (platform : Platform) (arch : Architecture)
    (extension targetTriple : string) : async unit :=
  let fileExtension := fileExtension_of platform in
  let fileName := BINARY_NAME +:+ "-" +:+ platform_name platform +:+ "-" +:+ arch_name arch
                  +:+ "." +:+ fileExtension in
  let downloadUrl := downloadUrl_of platform arch in
  let tmpDir := tmpDir_of platform arch in
  let downloadPath := tmpDir ++ [fileName] in
  try_catch
    (ensure_dir tmpDir ;;
     console Log ("Downloading sing-box version " +:+ platform_name platform +:+ "-"
                  +:+ arch_name arch +:+ "-" +:+ SING_BOX_VERSION E +:+ "...") ;;
     downloadFile downloadUrl downloadPath 3 ;;
     extractFile downloadPath fileExtension tmpDir ;;
     let extractedFilePath :=
       tmpDir ++ [BINARY_NAME +:+ "-" +:+ substring_from 1 (SING_BOX_VERSION E) +:+ "-"
                  +:+ platform_name platform +:+ "-" +:+ arch_name arch;
                  BINARY_NAME +:+ extension] in
     let targetPath :=
       ["src-tauri"; "binaries"; BINARY_NAME +:+ "-" +:+ targetTriple +:+ extension] in
     let targetDir := dirname targetPath in
     ensure_dir targetDir ;;
     renameSync extractedFilePath targetPath ;;
     rmSync_recursive tmpDir ;;
     console Log (platform_name platform +:+ "-" +:+ arch_name arch
                  +:+ " version processed successfully"))
    (fun error =>
       console Err ("Processing failed: " +:+ message error) ;;
       throw error).

(** ** Promises and [Promise.all] *)

Inductive promise :=
| Fulfilled
| Rejected (e : Error)
| Parked (a : await_kind) (k : world -> coro unit).

Definition park (c : coro unit) : promise * world :=
  match c with
  | Settled (inr _) w => (Fulfilled, w)
  | Settled (inl e) w => (Rejected e, w)
  | Pending a w k => (Parked a k, w)
  end.

(** Calling an [async] function without awaiting it: its body runs up to its
    first [await] and the caller receives the promise. *)
Definition start (m : async unit) : async promise :=
  fun w => let (p, w') := park (m w) in Settled (inr p) w'.

(** [tasks.map(async ...)] and loops that push one call after the other. *)
Fixpoint start_each (ms : list (async unit)) : async (list promise) :=
  match ms with
  | [] => ret []
  | m :: ms' =>
      let! p := start m in
      let! ps := start_each ms' in
      ret (p :: ps)
  end.

(** The event loop delivers the completion a parked task is waiting for. *)
Definition resume (p : promise) (w : world) : promise * world :=
  match p with
  | Parked _ k => park (k w)
  | _ => (p, w)
  end.

Definition resume_nth (i : nat) (ps : list promise) (w : world)
    : list promise * world :=
  match ps !! i with
  | Some p => let (p', w') := resume p w in (<[i := p']> ps, w')
  | None => (ps, w)
  end.

Definition rejection (p : promise) : option Error :=
  match p with Rejected e => Some e | _ => None end.

Definition first_rejected (ps : list promise) : option Error :=
  list_find (fun p => is_Some (rejection p)) ps ≫= (fun ip => rejection ip.2).

Definition all_fulfilled (ps : list promise) : bool :=
  forallb (fun p => match p with Fulfilled => true | _ => false end) ps.

Definition await_promise (p : promise) : async unit :=
  fun w =>
    match p with
    | Fulfilled => Settled (inr tt) w
    | Rejected e => Settled (inl e) w
    | Parked a k => Pending a w k
    end.

Fixpoint await_each (ps : list promise) : async unit :=
  match ps with
  | [] => ret tt
  | p :: ps' => await_promise p ;; await_each ps'
  end.

(** [await Promise.all(ps)].  The aggregate rejects as soon as one member
    has rejected and fulfils once all have fulfilled.  While it is pending,
    each resumption lets the member named by the head of the schedule make
    one step (a name that denotes no parked member is an idle turn); when
    the schedule is used up the members complete in list order.  On
    rejection the members still parked are dropped from the model: in this
    script a rejection travels from the aggregate to [process.exit(1)]
    through promise reactions only, so nothing resumes them. *)
Fixpoint Promise_all (sched : list nat) (ps : list promise) (w : world) : coro unit :=
  match first_rejected ps with
  | Some e => Settled (inl e) w
  | None =>
      if all_fulfilled ps then Settled (inr tt) w
      else
        match sched with
        | [] => await_each ps w
        | i :: sched' =>
            Pending OnAll w
              (fun w' => let (ps', w'') := resume_nth i ps w' in
                         Promise_all sched' ps' w'')
        end
  end.

(** ** [downloadEmbeddingExternalBinaries] *)

Definition extension_of (platform : Platform) : string :=
  if decide (platform = windows) then ".exe" else "".

(** The anonymous task that downloads sysproxy. *)
Definition sysproxy_task (targetTriple extension : string) : async unit :=
  console Log "Downloading Windows sysproxy..." ;;
  let targetPath := ["src-tauri"; "binaries"; "sysproxy-" +:+ targetTriple +:+ extension] in
  let targetDir := dirname targetPath in
  ensure_dir targetDir ;;
  downloadFile SYSPROXY_URL targetPath 3 ;;
  console Log "sysproxy download completed".

(** The calls made for one entry of the inner loop, in order. *)
Definition target_tasks (platform : Platform) (entry : Architecture * string)
    : list (async unit) :=
  let arch := entry.1 in
  let targetTriple := entry.2 in
  let extension := extension_of platform in
  embeddingExternalBinaries platform arch extension targetTriple ::
  (if decide (platform = windows ∧ arch = amd64)
   then [sysproxy_task targetTriple extension] else []).

Definition matrix_tasks (matrix : list (Platform * list (Architecture * string)))
    : list (async unit) :=
  mjoin ((fun row => mjoin (target_tasks row.1 <$> row.2)) <$> matrix).

Definition downloadEmbeddingExternalBinaries_over
    (matrix : list (Platform * list (Architecture * string)))
    (sched : list nat) : async unit :=
  let! downloadTasks := start_each (matrix_tasks matrix) in
  Promise_all sched downloadTasks.

Definition downloadEmbeddingExternalBinaries : list nat -> async unit :=
  downloadEmbeddingExternalBinaries_over RUST_TARGET_TRIPLES.

(** ** [downloadDatabaseFiles] *)

Definition resourcesDir : path := ["src-tauri"; "resources"].

Definition database_task (dbFile : string * string) : async unit :=
  let destPath := resourcesDir ++ [dbFile.1] in
  console Log ("Downloading database file: " +:+ dbFile.1 +:+ "...") ;;
  downloadFile dbFile.2 destPath 3 ;;
  console Log ("Downloaded database file to: src-tauri/resources/" +:+ dbFile.1).

Definition downloadDatabaseFiles_over (files : list (string * string))
    (sched : list nat) : async unit :=
  ensure_dir resourcesDir ;;
  let! downloadTasks := start_each (database_task <$> files) in
  Promise_all sched downloadTasks.

Definition downloadDatabaseFiles : list nat -> async unit :=
  downloadDatabaseFiles_over dbFiles.

(** ** Top level *)

(** The order of resumptions of one run: at the top-level aggregate and
    inside each of its two groups. *)
Record schedule := Schedule {
  top : list nat;
  binaries : list nat;
  databases : list nat;
}.

(** The [else] branch of the module body: the two groups are called, in
    order, and their aggregate is given its reactions. *)
Definition downloads (matrix : list (Platform * list (Architecture * string)))
    (files : list (string * string)) (s : schedule) : async Z :=
  console Log "Starting parallel downloads..." ;;
  let! p1 := start (downloadEmbeddingExternalBinaries_over matrix (binaries s)) in
  let! p2 := start (downloadDatabaseFiles_over files (databases s)) in
  try_catch
    (Promise_all (top s) [p1; p2] ;;
     console Log "All downloads completed!" ;;
     ret 0)
    (fun error =>
       console Err ("Download failed: " +:+ message error) ;;
       ret 1).

(** The module body.  Its value is the argument of [process.exit]; an
    exception that leaves it is uncaught.  The evaluation of
    [SkipVersionList.includes(SING_BOX_VERSION)] is recorded in the trace. *)
Definition script_over (matrix : list (Platform * list (Architecture * string)))
    (files : list (string * string)) (s : schedule) : async Z :=
  let found := bool_decide (SING_BOX_VERSION E ∈ SkipVersionList) in
  emit (EvIncludes (SING_BOX_VERSION E) found) ;;
  if found then
    console Log ("Skipping download for version " +:+ SING_BOX_VERSION E) ;;
    throw (mkError ("Version " +:+ SING_BOX_VERSION E +:+ " is in the skip list."))
  else
    downloads matrix files s.

Definition script : schedule -> async Z := script_over RUST_TARGET_TRIPLES dbFiles.

End Script.

(** How the process ends. *)
Inductive termination :=
| Exit (code : Z)
| Uncaught (e : Error).

(** Node exits with status 1 on an uncaught exception. *)
Definition exit_status (t : termination) : Z :=
  match t with
  | Exit code => code
  | Uncaught _ => 1
  end.

(** The process: the module body is evaluated, then the event loop resumes
    whatever is parked until the script exits. *)
Definition execute (main : async Z) (w : world) : termination * world :=
  match run (main w) with
  | (inr code, w') => (Exit code, w')
  | (inl e, w') => (Uncaught e, w')
  end.

(** ** Vocabulary of the statements *)

(** The error with which an attempt fails, if it does, given what the
    transport does with its request. *)
Definition attempt_failure (url : string) (o : net_outcome) : option Error :=
  match o with
  | FetchRejects e => Some e
  | Response ok status body =>
      if negb ok then
        Some (mkError ("Download failed: '" +:+ url +:+ "' (" +:+ string_of_Z status +:+ ")"))
      else
        match body with
        | None => Some (mkError "Response body is empty")
        | Some b => broke b
        end
  end.

(** The [attempt]-th request for [url] makes the attempt fail. *)
Definition fails (E : env) (url : string) (attempt : Z) : Prop :=
  is_Some (attempt_failure url (transport E url attempt)).

(** The archive library [extractFile] dispatches to for a platform's
    archives. *)
Definition unpacker (E : env) (platform : Platform) (data : content) : unpacked :=
  if String.eqb (fileExtension_of platform) "zip" then unzip E data else untar E data.



(** The bytes an attempt leaves at the destination when it succeeds. *)
Definition attempt_payload (o : net_outcome) : content :=
  match o with
  | Response _ _ (Some b) => delivered b
  | _ => ""
  end.

(** The rhythm of a download: among its suspensions, the requests and the
    back-off delays, in order. *)
Inductive beat :=
| Request
| Delay (ms : Z).

Definition beat_of {W} (aw : await_kind * W) : option beat :=
  match aw.1 with
  | OnFetch _ => Some Request
  | OnTimer ms => Some (Delay ms)
  | _ => None
  end.

Definition rhythm {W} (l : list (await_kind * W)) : list beat := omap beat_of l.

(** [k] attempts, numbered from [first], each followed by the delay of
    [1000] ms times its number, and then one more attempt. *)
Definition retries (first k : nat) : list beat :=
  flat_map (fun n => [Request; Delay (Z.of_nat n * 1000)]) (seq first k) ++ [Request].

(** [Q] holds of the result and the final world of [m] run on its own
    from [w]. *)
Definition post {A} (m : async A) (w : world) (Q : Error + A -> world -> Prop) : Prop :=
  Q (run (m w)).1 (run (m w)).2.

(** [sat R Q w0 c]: under every interleaving, that is, whatever world each
    resumption of [c] is handed, every stretch of synchronous execution takes
    the world it starts from to one related to it by [R], and the result, if
    [c] settles, satisfies [Q]. *)
Fixpoint sat {A} (R : world -> world -> Prop) (Q : Error + A -> Prop)
    (w0 : world) (c : coro A) : Prop :=
  match c with
  | Settled r w => R w0 w /\ Q r
  | Pending _ w k => R w0 w /\ forall w', sat R Q w' (k w')
  end.

Definition promise_sat (R : world -> world -> Prop) (Q : Error + unit -> Prop)
    (p : promise) : Prop :=
  match p with
  | Fulfilled => Q (inr tt)
  | Rejected e => Q (inl e)
  | Parked _ k => forall w', sat R Q w' (k w')
  end.

Definition any {A} : Error + A -> Prop := fun _ => True.
Definition rejects {A} : Error + A -> Prop := fun r => exists e, r = inl e.
Definition fulfils {A} : Error + A -> Prop := fun r => exists a, r = inr a.

(** No constraint on how the world evolves. *)
Definition unconstrained : world -> world -> Prop := fun _ _ => True.

(** The events of the skip-list test. *)
Definition is_check (ev : event) : Prop :=
  match ev with
  | EvIncludes _ _ => True
  | _ => False
  end.

(** [w'] has the trace of [w] followed by events none of which is a
    skip-list test. *)
Definition extends (w w' : world) : Prop :=
  exists l, trace w' = trace w ++ l /\ Forall (fun ev => ~ is_check ev) l.

(** The URL as the specification words it: every embedded occurrence of
    the version has lost its leading marker character. *)
Definition downloadUrl_all_stripped (E : env) (platform : Platform) (arch : Architecture)
    : string :=
  GITHUB_RELEASE_URL +:+ substring_from 1 (SING_BOX_VERSION E) +:+ "/" +:+ BINARY_NAME
  +:+ "-" +:+ substring_from 1 (SING_BOX_VERSION E) +:+ "-" +:+ platform_name platform
  +:+ "-" +:+ arch_name arch +:+ "." +:+ fileExtension_of platform.

(** ** Concrete runs *)

(** One binary target and one asset; the asset's server answers with the
    file, every other request is refused. *)
Definition asset_url : string := "https://example.org/a.db".
Definition refused : Error := mkError "connect ECONNREFUSED".

Definition one_target : list (Platform * list (Architecture * string)) :=
  [ (linux, [ (amd64, "x86_64-unknown-linux-gnu") ]) ].
Definition one_asset : list (string * string) := [ ("a.db", asset_url) ].

Definition sing_box_tree : list (path * node) :=
  [ (["sing-box-1.12.0-linux-amd64"], Dir);
    (["sing-box-1.12.0-linux-amd64"; "sing-box"], File "ELF") ].

Definition archive_unreachable : env := {|
  SING_BOX_VERSION := "v1.12.0";
  dirname__ := ["scripts"];
  unique_suffix := fun _ _ => "1700000000000-k3x9q";
  transport := fun url _ =>
    if String.eqb url asset_url
    then Response true 200 (Some (Body "DB" None))
    else FetchRejects refused;
  unzip := fun _ => Unpacked [] None;
  untar := fun _ => Unpacked sing_box_tree None;
|}.

(** Every request is answered, but the archives are corrupt. *)
Definition archive_corrupt : env := {|
  SING_BOX_VERSION := "v1.12.0";
  dirname__ := ["scripts"];
  unique_suffix := fun _ _ => "1700000000000-k3x9q";
  transport := fun _ _ => Response true 200 (Some (Body "garbage" None));
  unzip := fun _ => Unpacked [] (Some (mkError "invalid signature"));
  untar := fun _ => Unpacked [] (Some (mkError "TAR_BAD_ARCHIVE: Unrecognized archive format"));
|}.

(** A transport that refuses the first request, breaks the second response
    in mid-stream, and serves the third. *)
Definition flaky : env := {|
  SING_BOX_VERSION := "v1.12.0";
  dirname__ := ["scripts"];
  unique_suffix := fun _ _ => "1700000000000-k3x9q";
  transport := fun _ attempt =>
    if attempt =? 1 then FetchRejects refused
    else if attempt =? 2
         then Response true 200 (Some (Body "PAY" (Some (mkError "socket hang up"))))
         else Response true 200 (Some (Body "PAYLOAD" None));
  unzip := fun _ => Unpacked [] None;
  untar := fun _ => Unpacked sing_box_tree None;
|}.

(** The version on the skip-list. *)
Definition skipped_version : env := {|
  SING_BOX_VERSION := "v1.12.5";
  dirname__ := ["scripts"];
  unique_suffix := fun _ _ => "1700000000000-k3x9q";
  transport := fun _ _ => Response true 200 (Some (Body "PAYLOAD" None));
  unzip := fun _ => Unpacked [] None;
  untar := fun _ => Unpacked sing_box_tree None;
|}.

Definition empty_disk : world := World ∅ [].

(** A disk on which an earlier run has installed [out.bin], the sysproxy
    helper and a database file. *)
Definition installed : world :=
  World (<[ ["out.bin"] := File "OLD" ]>
         (<[ ["src-tauri"; "binaries"; "sysproxy-x86_64-pc-windows-msvc.exe"] := File "MZ" ]>
          (<[ ["src-tauri"; "resources"; "b.db"] := File "SQLite" ]> ∅))) [].

Definition unreachable_url : string := "https://example.org/b.db".


(** No order is imposed: members complete in list order, the binaries group
    before the databases group. *)
Definition binaries_first : schedule := Schedule [] [] [].

(** The paths of [embeddingExternalBinaries]: where the archive is
    downloaded to, where the executable is expected inside the unpacked
    archive, and where it is installed. *)
Definition downloadPath_of (E : env) (platform : Platform) (arch : Architecture) : path :=
  tmpDir_of E platform arch
  ++ [BINARY_NAME +:+ "-" +:+ platform_name platform +:+ "-" +:+ arch_name arch
      +:+ "." +:+ fileExtension_of platform].

Definition executable_in_archive (E : env) (platform : Platform) (arch : Architecture)
    (extension : string) : path :=
  [BINARY_NAME +:+ "-" +:+ substring_from 1 (SING_BOX_VERSION E) +:+ "-"
   +:+ platform_name platform +:+ "-" +:+ arch_name arch;
   BINARY_NAME +:+ extension].

Definition targetPath_of (targetTriple extension : string) : path :=
  ["src-tauri"; "binaries"; BINARY_NAME +:+ "-" +:+ targetTriple +:+ extension].

(** The environment with another [tar], and with another [unzipper]. *)
Definition with_untar (E : env) (f : content -> unpacked) : env :=
  Env (SING_BOX_VERSION E) (dirname__ E) (unique_suffix E) (transport E) (unzip E) f.

Definition with_unzip (E : env) (f : content -> unpacked) : env :=
  Env (SING_BOX_VERSION E) (dirname__ E) (unique_suffix E) (transport E) f (untar E).

(** The world a computation is in when it first gives control back: parked
    at its first [await], or settled without ever awaiting. *)
Definition parked_world {A} (c : coro A) : world :=
  match c with
  | Settled _ w => w
  | Pending _ w _ => w
  end.

(** The URLs the tasks of a matrix ask for first, in the order of the two
    loops of [downloadEmbeddingExternalBinaries]. *)
Definition target_urls (E : env) (platform : Platform) (entry : Architecture * string)
    : list string :=
  downloadUrl_of E platform entry.1 ::
  (if decide (platform = windows ∧ entry.1 = amd64) then [SYSPROXY_URL] else []).

Definition matrix_urls (E : env) (matrix : list (Platform * list (Architecture * string)))
    : list string :=
  mjoin ((fun row => mjoin (target_urls E row.1 <$> row.2)) <$> matrix).

(** The two trees the script works in: [tmp] beside the script, and
    [src-tauri] in the working directory. *)
Definition inside (E : env) (p : path) : Prop :=
  (dirname__ E ++ ["tmp"]) `prefix_of` p \/ ["src-tauri"] `prefix_of` p.

(** Every entry of [w] outside the two trees is in [w'] as it was. *)
Definition keeps_outside (E : env) (w w' : world) : Prop :=
  forall p n, ~ inside E p -> fs w !! p = Some n -> fs w' !! p = Some n.

(** ** [getCronetLatestVersion] and [downloadCronetLibraries] *)

Definition CRONET_REPO_API : string :=
  "https://api.github.com/repos/SagerNet/cronet-go/releases/latest".
Definition CRONET_RELEASE_URL : string :=
  "https://github.com/SagerNet/cronet-go/releases/download/".

(** [`${v}`] for a value that may be [undefined]. *)
Definition template_of (v : option string) : string := default "undefined" v.

Section Cronet.
Context (E : env).
(** [JSON.parse(text).tag_name]: the error the parse or the property access
    raises, or the value of the property, [None] when it is [undefined]. *)
Context (tag_name_of : content -> Error + option string).

(** [(await response.json()).tag_name]: the body is read to its end and
    parsed; a response without a body reads as the empty text.  The wait is
    a second wait on the same request. *)
Definition response_tag_name (body : option body_stream) : async (option string) :=
  suspend (OnFetch CRONET_REPO_API) ;;
  match body with
  | None => match tag_name_of "" with inl e => throw e | inr tag => ret tag end
  | Some b =>
      match broke b with
      | Some e => throw e
      | None => match tag_name_of (delivered b) with inl e => throw e | inr tag => ret tag end
      end
  end.

Definition getCronetLatestVersion_try (attempt : Z) : async (option string) :=
  emit (EvFetch CRONET_REPO_API) ;;
  suspend (OnFetch CRONET_REPO_API) ;;
  match transport E CRONET_REPO_API attempt with
  | FetchRejects e => throw e
  | Response ok status body =>
      if negb ok then
        throw (mkError ("Failed to fetch cronet-go latest release: " +:+ string_of_Z status))
      else response_tag_name body
  end.

Definition getCronetLatestVersion_catch (maxRetries attempt : Z) (lastError : Error)
    : async unit :=
  if attempt <? maxRetries then
    let waitTime := attempt * 1000 in
    console Warn ("Fetch attempt " +:+ string_of_Z attempt +:+ " failed: "
                  +:+ message lastError +:+ ". Retrying in "
                  +:+ string_of_Z waitTime +:+ "ms...") ;;
    suspend (OnTimer waitTime)
  else ret tt.

(** One iteration: the value the [try] block returned, or the error the
    [catch] block stored in [lastError]. *)
Definition getCronetLatestVersion_iteration (maxRetries attempt : Z)
    : async (Error + option string) :=
  try_catch (let! tag := getCronetLatestVersion_try attempt in ret (inr tag))
            (fun error => getCronetLatestVersion_catch maxRetries attempt error ;;
                          ret (inl error)).

Fixpoint getCronetLatestVersion_loop (remaining : nat) (maxRetries attempt : Z)
    (lastError : option Error) : async (option string) :=
  match remaining with
  | O => throw (mkError ("Failed to fetch cronet-go version after "
                         +:+ string_of_Z maxRetries +:+ " attempts. Last error: "
                         +:+ last_message lastError))
  | S remaining' =>
      let! caught := getCronetLatestVersion_iteration maxRetries attempt in
      match caught with
      | inr tag => ret tag
      | inl error =>
          getCronetLatestVersion_loop remaining' maxRetries (attempt + 1) (Some error)
      end
  end.

Definition getCronetLatestVersion : async (option string) :=
  getCronetLatestVersion_loop 3 3 1 None.

Definition cronetFiles (cronetVersion : option string) : list (string * string) :=
  [ ("libcronet.so",
     CRONET_RELEASE_URL +:+ template_of cronetVersion +:+ "/libcronet-linux-amd64.so");
    ("libcronet.dll",
     CRONET_RELEASE_URL +:+ template_of cronetVersion +:+ "/libcronet-windows-amd64.dll") ].

Definition cronet_task (file : string * string) : async unit :=
  let destPath := resourcesDir ++ [file.1] in
  console Log ("Downloading cronet library: " +:+ file.1 +:+ "...") ;;
  downloadFile E file.2 destPath 3 ;;
  console Log ("Downloaded cronet library to: src-tauri/resources/" +:+ file.1).

Definition downloadCronetLibraries (sched : list nat) : async unit :=
  let! cronetVersion := getCronetLatestVersion in
  console Log ("Using cronet-go version: " +:+ template_of cronetVersion) ;;
  ensure_dir resourcesDir ;;
  let! downloadTasks := start_each (cronet_task <$> cronetFiles cronetVersion) in
  Promise_all sched downloadTasks.

(** What one request to the release index comes to: the tag it yields, or
    the error the attempt fails with. *)
Definition index_answer (o : net_outcome) : Error + option string :=
  match o with
  | FetchRejects e => inl e
  | Response ok status body =>
      if negb ok then
        inl (mkError ("Failed to fetch cronet-go latest release: " +:+ string_of_Z status))
      else
        match body with
        | None => tag_name_of ""
        | Some b =>
            match broke b with
            | Some e => inl e
            | None => tag_name_of (delivered b)
            end
        end
  end.

End Cronet.

(** The delays of the timers among a list of suspensions. *)
Definition delays {W} (l : list (await_kind * W)) : list Z :=
  omap (fun aw => match aw.1 with OnTimer ms => Some ms | _ => None end) l.

(** ** The footer of [Body] *)

(** The fields of a subscription that [Body] reads. *)
Record Subscription := {
  identifier : string;
  used_traffic : Z;
  total_traffic : Z;
  expire_time : Z;
}.

(** The no-break space, U+00A0. *)
Definition nbsp : string := String "194" (String "160" EmptyString).

Section View.
(** The translation table, the text a template literal gets from
    [bytes(n)], and [new Date(ms).toLocaleDateString('zh-CN')]. *)
Context (t : string -> string) (bytes : Z -> string) (toLocaleDateString : Z -> string).

Definition formatDate (prefix : string) (date : Z) : string :=
  if date =? 32503680000000 then t "local_file_no_expire"
  else if date =? 0 then t "never_expires"
  else prefix +:+ " " +:+ toLocaleDateString date.

(** [sub?.expire_time === 32503680000000] *)
Definition isLocalFile (sub : option Subscription) : bool :=
  match sub with
  | Some s => expire_time s =? 32503680000000
  | None => false
  end.

Definition trafficDetails (sub : option Subscription) : string :=
  match sub with
  | Some s =>
      if negb (isLocalFile sub)
      then bytes (used_traffic s) +:+ " / " +:+ bytes (total_traffic s)
      else ""
  | None => ""
  end.

(** The two lines under the selectors, rendered when a subscription is
    selected: [trafficDetails || nbsp], then the expiry. *)
Definition footer (sub : option Subscription) : option (string * string) :=
  match sub with
  | Some s =>
      Some (match trafficDetails sub with
            | EmptyString => nbsp
            | details => details
            end,
            formatDate (t "expired_at") (expire_time s))
  | None => None
  end.

End View.

(** ** Further concrete runs *)

(** A disk on which an earlier run has installed the linux/amd64 binary. *)
Definition linux_installed : world :=
  World (<[ targetPath_of "x86_64-unknown-linux-gnu" "" := File "ELF-OLD" ]> ∅) [].

(** The text of a release record with the given tag, and a reader of
    [tag_name] that knows this record, the empty record and nothing else. *)
Definition quote : string := String "034" EmptyString.
Definition release_record (tag : string) : string :=
  "{" +:+ quote +:+ "tag_name" +:+ quote +:+ ":" +:+ quote +:+ tag +:+ quote +:+ "}".
Definition tag_name_reader (text : content) : Error + option string :=
  if String.eqb text (release_record "v143.0.7499.109-2") then inr (Some "v143.0.7499.109-2")
  else if String.eqb text "{}" then inr None
  else inl (mkError "Unexpected end of JSON input").

(** The release index is rate-limited at the first request and answers the
    later ones with [record]; every other request is served. *)
Definition index_serving (record : content) : env := {|
  SING_BOX_VERSION := "v1.12.0";
  dirname__ := ["scripts"];
  unique_suffix := fun _ _ => "1700000000000-k3x9q";
  transport := fun url attempt =>
    if String.eqb url CRONET_REPO_API
    then if attempt =? 1 then Response false 403 None
         else Response true 200 (Some (Body record None))
    else Response true 200 (Some (Body "LIB" None));
  unzip := fun _ => Unpacked [] None;
  untar := fun _ => Unpacked sing_box_tree None;
|}.

(** The URLs of the requests recorded in a trace, in order. *)
Definition requests (l : list event) : list string :=
  omap (fun ev => match ev with EvFetch url => Some url | _ => None end) l.

(** [m] issues one request, for [url], and parks. *)
Definition launches (url : string) (m : async unit) : Prop :=
  forall w, exists a w1 k,
    m w = Pending a w1 k /\ requests (trace w1) = requests (trace w) ++ [url].

Definition unrejected (ps : list promise) : Prop :=
  Forall (fun p => rejection p = None) ps.

(** ** Running sequential compositions *)

Lemma run_bind {A B} (c : coro A) (f : A -> async B) :
  run (bind_co c f) =
  match run c with
  | (inr a, w) => run (f a w)
  | (inl e, w) => (inl e, w)
  end.
Proof. induction c as [[e|a] w|a w k IH]; simpl; auto. Qed.

Lemma run_catch {A} (c : coro A) (h : Error -> async A) :
  run (catch_co c h) =
  match run c with
  | (inr a, w) => (inr a, w)
  | (inl e, w) => run (h e w)
  end.
Proof. induction c as [[e|a] w|a w k IH]; simpl; auto. Qed.

Lemma awaits_bind {A B} (c : coro A) (f : A -> async B) :
  awaits (bind_co c f) =
  awaits c ++ match run c with
              | (inr a, w) => awaits (f a w)
              | (inl _, _) => []
              end.
Proof. induction c as [[e|a] w|a w k IH]; simpl; auto. by rewrite IH. Qed.

Lemma awaits_catch {A} (c : coro A) (h : Error -> async A) :
  awaits (catch_co c h) =
  awaits c ++ match run c with
              | (inr _, _) => []
              | (inl e, w) => awaits (h e w)
              end.
Proof. induction c as [[e|a] w|a w k IH]; simpl; auto. by rewrite IH. Qed.

Lemma rhythm_app {W} (l1 l2 : list (await_kind * W)) :
  rhythm (l1 ++ l2) = rhythm l1 ++ rhythm l2.
Proof. apply omap_app. Qed.



Lemma retries_cons (a : Z) (k : nat) :
  1 <= a ->
  Request :: Delay (a * 1000) :: retries (Z.to_nat (a + 1)) k
  = retries (Z.to_nat a) (S k).
Proof.
  intros Ha. unfold retries. simpl. rewrite Z2Nat.id by lia.
  by replace (Z.to_nat (a + 1)) with (S (Z.to_nat a)) by lia.
Qed.

Section Fetcher.
Context (E : env).

(** The [catch] block never raises; it leaves the destination absent and,
    unless the attempt was the last one allowed, ends parked on the timer. *)
Lemma catch_block url dest maxRetries attempt err w :
  exists tr,
    run (downloadFile_catch url dest maxRetries attempt err w)
      = (inr tt, World (delete dest (fs w)) tr) /\
    awaits (downloadFile_catch url dest maxRetries attempt err w)
      = if attempt <? maxRetries
        then [(OnTimer (attempt * 1000), World (delete dest (fs w)) tr)]
        else [].
Proof.
  destruct w as [m tr0].
  unfold downloadFile_catch, bind, existsSync, unlinkSync, console, emit, put_fs, suspend.
  simpl. case_bool_decide as Hin; simpl.
  - destruct (attempt <? maxRetries); simpl; eauto.
  - assert (m !! dest = None) as Hnone.
    { destruct (m !! dest) eqn:Hl; [exfalso; apply Hin; eauto|done]. }
    rewrite (delete_id _ _ Hnone).
    destruct (attempt <? maxRetries); simpl; eauto.
Qed.

(** The [try] block of a failing attempt: it raises the attempt's error and
    touches nothing but the destination. *)
Lemma try_block_fails url dest attempt e w :
  attempt_failure url (transport E url attempt) = Some e ->
  exists w1,
    run (downloadFile_try E url dest attempt w) = (inl e, w1) /\
    delete dest (fs w1) = delete dest (fs w) /\
    rhythm (awaits (downloadFile_try E url dest attempt w)) = [Request].
Proof.
  intros Hf. unfold downloadFile_try, bind, emit, suspend, streamPipeline, bind, put_fs.
  simpl. unfold attempt_failure in Hf.
  destruct (transport E url attempt) as [e'|ok st body]; simpl.
  - simplify_eq. eauto.
  - destruct ok; simpl in *.
    + destruct body as [[data [e'|]]|]; simpl in *; simplify_eq.
      * eexists; split; [done|]. split; [|done]. simpl. apply delete_insert_eq.
      * eauto.
    + simplify_eq. eauto.
Qed.

(** The [try] block of a successful attempt: the destination holds exactly
    what the stream delivered. *)
Lemma try_block_succeeds url dest attempt w :
  attempt_failure url (transport E url attempt) = None ->
  run (downloadFile_try E url dest attempt w)
    = (inr tt, World (<[dest := File (attempt_payload (transport E url attempt))]> (fs w))
                     (trace w ++ [EvFetch url])) /\
  rhythm (awaits (downloadFile_try E url dest attempt w)) = [Request].
Proof.
  intros Hf. unfold downloadFile_try, bind, emit, suspend, streamPipeline, bind, put_fs.
  simpl. unfold attempt_failure in Hf.
  destruct (transport E url attempt) as [e'|ok st body]; simpl; [done|].
  destruct ok; simpl in *; [|done].
  destruct body as [[data [e'|]]|]; simpl in *; simplify_eq. done.
Qed.

(** A failed iteration: the error is kept, and whatever was at the
    destination, written by this attempt or not, is gone. *)
Lemma iteration_fails url dest maxRetries attempt e w :
  attempt_failure url (transport E url attempt) = Some e ->
  exists tr pre,
    run (downloadFile_iteration E url dest maxRetries attempt w)
      = (inr (Some e), World (delete dest (fs w)) tr) /\
    rhythm pre = [Request] /\
    awaits (downloadFile_iteration E url dest maxRetries attempt w)
      = pre ++ (if attempt <? maxRetries
                then [(OnTimer (attempt * 1000), World (delete dest (fs w)) tr)]
                else []).
Proof.
  intros Hf. destruct (try_block_fails url dest attempt e w Hf) as (w1 & Hrun & Hfs & Htm).
  destruct (catch_block url dest maxRetries attempt e w1) as (tr & Hc & Hca).
  rewrite Hfs in Hc, Hca.
  exists tr, (awaits (downloadFile_try E url dest attempt w)).
  unfold downloadFile_iteration, try_catch, bind.
  rewrite run_catch, awaits_catch, run_bind, awaits_bind, Hrun. simpl.
  unfold bind. rewrite run_bind, awaits_bind, Hc, Hca. simpl.
  rewrite !app_nil_r. done.
Qed.

Lemma iteration_succeeds url dest maxRetries attempt w :
  attempt_failure url (transport E url attempt) = None ->
  run (downloadFile_iteration E url dest maxRetries attempt w)
    = (inr None, World (<[dest := File (attempt_payload (transport E url attempt))]> (fs w))
                       (trace w ++ [EvFetch url])) /\
  rhythm (awaits (downloadFile_iteration E url dest maxRetries attempt w)) = [Request].
Proof.
  intros Hf. destruct (try_block_succeeds url dest attempt w Hf) as (Hrun & Htm).
  unfold downloadFile_iteration, try_catch, bind.
  rewrite run_catch, awaits_catch, run_bind, awaits_bind, Hrun. simpl.
  by rewrite !app_nil_r.
Qed.

Lemma loop_step remaining url dest maxRetries attempt last w :
  downloadFile_loop E (S remaining) url dest maxRetries attempt last w
  = bind_co (downloadFile_iteration E url dest maxRetries attempt w)
      (fun caught =>
         match caught with
         | None => ret tt
         | Some error =>
             downloadFile_loop E remaining url dest maxRetries (attempt + 1) (Some error)
         end).
Proof. reflexivity. Qed.

(** The loop when every remaining attempt fails. *)
Lemma loop_exhausts remaining url dest maxRetries attempt last w :
  1 <= attempt ->
  attempt + Z.of_nat remaining = maxRetries + 1 ->
  (forall n, attempt <= n <= maxRetries -> fails E url n) ->
  exists last' w',
    run (downloadFile_loop E remaining url dest maxRetries attempt last w)
      = (inl (exhausted url maxRetries last'), w') /\
    (remaining = 0%nat -> last' = last /\ w' = w) /\
    (remaining <> 0%nat ->
       last' = attempt_failure url (transport E url maxRetries) /\
       is_Some last' /\ fs w' = delete dest (fs w)) /\
    rhythm (awaits (downloadFile_loop E remaining url dest maxRetries attempt last w))
      = match remaining with
        | O => []
        | S r => retries (Z.to_nat attempt) r
        end.
Proof.
  revert attempt last w.
  induction remaining as [|r IH]; intros attempt last w Ha Hlen Hall.
  - simpl. exists last, w. repeat split; done.
  - destruct (Hall attempt ltac:(lia)) as [e He].
    destruct (iteration_fails url dest maxRetries attempt e w He)
      as (tr & pre & Hrun & Hpre & Haw).
    destruct (IH (attempt + 1) (Some e) (World (delete dest (fs w)) tr))
      as (last' & w' & Hrun' & Hzero & Hpos & Htm); [lia|lia|intros; apply Hall; lia|].
    exists last', w'.
    rewrite loop_step, run_bind, awaits_bind, Hrun, Haw.
    split; [done|]. split; [done|]. split.
    + intros _. destruct r as [|r'].
      * destruct (Hzero eq_refl) as [-> ->]. simpl.
        replace maxRetries with attempt by lia. rewrite He. eauto.
      * destruct (Hpos ltac:(done)) as (-> & Hs & ->). simpl.
        by rewrite delete_delete_eq.
    + rewrite !rhythm_app, Hpre, Htm.
      destruct r as [|r'].
      * replace (attempt <? maxRetries) with false by lia. done.
      * replace (attempt <? maxRetries) with true by lia.
        exact (retries_cons attempt r' Ha).
Qed.

(** The loop when [k] more attempts fail and the next one succeeds. *)
Lemma loop_succeeds (k : nat) remaining url dest maxRetries attempt last w :
  1 <= attempt ->
  attempt + Z.of_nat remaining = maxRetries + 1 ->
  (k < remaining)%nat ->
  (forall n, attempt <= n < attempt + Z.of_nat k -> fails E url n) ->
  attempt_failure url (transport E url (attempt + Z.of_nat k)) = None ->
  exists tr,
    run (downloadFile_loop E remaining url dest maxRetries attempt last w)
      = (inr tt,
         World (<[dest := File (attempt_payload (transport E url (attempt + Z.of_nat k)))]>
                  (fs w)) tr) /\
    rhythm (awaits (downloadFile_loop E remaining url dest maxRetries attempt last w))
      = retries (Z.to_nat attempt) k.
Proof.
  revert remaining attempt last w.
  induction k as [|k IH]; intros remaining attempt last w Ha Hlen Hk Hfail Hok;
    (destruct remaining as [|r]; [lia|]).
  - replace (attempt + Z.of_nat 0) with attempt in * by lia.
    destruct (iteration_succeeds url dest maxRetries attempt w Hok) as [Hrun Htm].
    rewrite loop_step, run_bind, awaits_bind, Hrun. simpl.
    rewrite app_nil_r. eauto.
  - destruct (Hfail attempt ltac:(lia)) as [e He].
    destruct (iteration_fails url dest maxRetries attempt e w He)
      as (tr & pre & Hrun & Hpre & Haw).
    replace (attempt + Z.of_nat (S k)) with (attempt + 1 + Z.of_nat k) in * by lia.
    destruct (IH r (attempt + 1) (Some e) (World (delete dest (fs w)) tr))
      as (tr' & Hrun' & Htm); [lia|lia|lia|intros; apply Hfail; lia|done|].
    exists tr'.
    rewrite loop_step, run_bind, awaits_bind, Hrun, Haw.
    rewrite Hrun'. simpl. rewrite insert_delete_eq. split; [done|].
    rewrite !rhythm_app, Hpre, Htm.
    replace (attempt <? maxRetries) with true by lia.
    exact (retries_cons attempt k Ha).
Qed.






(** C10.  With [maxRetries <= 0] the call rejects at once: it is never
    parked (no request, no transfer, no timer), the world, hence any file at
    the destination, is as before, and the error names the configured count
    and renders the absent last error ([lastError] is still [null]) as
    [undefined]. *)
Theorem downloadFile_without_attempts url dest maxRetries w :
  maxRetries <= 0 ->
  downloadFile E url dest maxRetries w
  = Settled (inl (mkError ("Download failed after " +:+ string_of_Z maxRetries
                           +:+ " attempts: '" +:+ url
                           +:+ "'. Last error: undefined"))) w.
Proof.
  intros Hle. unfold downloadFile.
  replace (Z.to_nat maxRetries) with 0%nat by lia. reflexivity.
Qed.

End Fetcher.

(** ** File-system facts *)

Lemma mkdir_one_mono m d p : is_Some (m !! p) -> is_Some (mkdir_one m d !! p).
Proof.
  intros Hp. unfold mkdir_one. destruct (m !! d) eqn:Hd; [done|].
  destruct (decide (d = p)) as [->|Hne]; [by rewrite lookup_insert_eq|].
  by rewrite lookup_insert_ne.
Qed.

Lemma mkdir_one_self m d : is_Some (mkdir_one m d !! d).
Proof.
  unfold mkdir_one. destruct (m !! d) eqn:Hd; [by rewrite Hd|].
  by rewrite lookup_insert_eq.
Qed.

Lemma mkdirs_mono ds m p :
  is_Some (m !! p) -> is_Some (foldl mkdir_one m ds !! p).
Proof.
  revert m. induction ds as [|d ds IH]; intros m Hp; [done|].
  simpl. apply IH. by apply mkdir_one_mono.
Qed.

Lemma mkdirs_elem ds m p : p ∈ ds -> is_Some (foldl mkdir_one m ds !! p).
Proof.
  revert m. induction ds as [|d ds IH]; intros m Hin.
  - by apply elem_of_nil in Hin.
  - simpl. apply elem_of_cons in Hin as [->|Hin].
    + apply mkdirs_mono, mkdir_one_self.
    + by apply IH.
Qed.

Lemma ancestors_and_self_elem p : p <> [] -> p ∈ ancestors_and_self p.
Proof.
  induction p as [|s p IH]; [done|]. intros _. simpl.
  destruct p as [|s' p'].
  - apply list_elem_of_here.
  - apply list_elem_of_further, list_elem_of_fmap. exists (s' :: p').
    split; [done|]. by apply IH.
Qed.

(** [ensure_dir] is synchronous; afterwards the directory is there and
    nothing that was there is lost. *)
Lemma ensure_dir_spec d w :
  exists w1,
    ensure_dir d w = Settled (inr tt) w1 /\
    (d <> [] -> is_Some (fs w1 !! d)) /\
    (forall p, is_Some (fs w !! p) -> is_Some (fs w1 !! p)).
Proof.
  unfold ensure_dir, bind, existsSync, mkdirSync_recursive, put_fs. simpl.
  case_bool_decide as Hin; simpl.
  - exists w. done.
  - eexists. split; [done|]. simpl. split.
    + intros Hne. by apply mkdirs_elem, ancestors_and_self_elem.
    + intros p Hp. by apply mkdirs_mono.
Qed.

Lemma write_entries_mono tmpDir es m p :
  is_Some (m !! p) -> is_Some (write_entries tmpDir m es !! p).
Proof.
  unfold write_entries. revert m.
  induction es as [|e es IH]; intros m Hp; [done|].
  simpl. apply IH.
  destruct (decide (tmpDir ++ e.1 = p)) as [->|Hne]; [by rewrite lookup_insert_eq|].
  by rewrite lookup_insert_ne.
Qed.

Lemma app_cons_neq {A} (l l' : list A) x : l ++ x :: l' <> l.
Proof.
  intros Heq. apply (f_equal length) in Heq.
  rewrite length_app in Heq. simpl in Heq. lia.
Qed.

(** ** Postconditions of a run on its own *)

Lemma post_mono {A} (m : async A) w (Q Q' : Error + A -> world -> Prop) :
  post m w Q -> (forall r w', Q r w' -> Q' r w') -> post m w Q'.
Proof. unfold post. auto. Qed.

Lemma post_bind {A B} (m : async A) (f : A -> async B) w Q :
  post m w (fun r w1 =>
              match r with
              | inr a => post (f a) w1 Q
              | inl e => Q (inl e) w1
              end) ->
  post (bind m f) w Q.
Proof.
  unfold post, bind. rewrite run_bind.
  by destruct (run (m w)) as [[e|a] w1].
Qed.

Lemma post_catch {A} (m : async A) (h : Error -> async A) w Q :
  post m w (fun r w1 =>
              match r with
              | inr a => Q (inr a) w1
              | inl e => post (h e) w1 Q
              end) ->
  post (try_catch m h) w Q.
Proof.
  unfold post, try_catch. rewrite run_catch.
  by destruct (run (m w)) as [[e|a] w1].
Qed.

Lemma post_console lvl text w :
  post (console lvl text) w (fun r w1 => r = inr tt /\ fs w1 = fs w).
Proof. done. Qed.

Lemma post_ensure_dir d w :
  post (ensure_dir d) w
    (fun r w1 => r = inr tt /\ (d <> [] -> is_Some (fs w1 !! d)) /\
                 (forall p, is_Some (fs w !! p) -> is_Some (fs w1 !! p))).
Proof.
  unfold post. destruct (ensure_dir_spec d w) as (w1 & -> & H1 & H2). done.
Qed.

Lemma post_renameSync src dst w :
  post (renameSync src dst) w
    (fun r w1 =>
       match r with
       | inl _ => w1 = w
       | inr _ => exists n, fs w1 = <[dst := n]> (delete src (fs w))
       end).
Proof.
  unfold post, renameSync, put_fs, throw.
  destruct (fs w !! src); simpl; eauto.
Qed.

Lemma post_rmSync d w :
  post (rmSync_recursive d) w
    (fun r w1 => r = inr tt /\ forall p, d `prefix_of` p -> fs w1 !! p = None).
Proof.
  unfold post, rmSync_recursive, put_fs. simpl. split; [done|].
  intros p Hp. apply map_lookup_filter_None. right. intros n _ Hnot.
  by apply Hnot.
Qed.

(** The [catch] block that logs and re-raises keeps the file system. *)
Ltac rejected_after_log :=
  apply post_bind; eapply post_mono; [apply post_console|];
  let Hfs := fresh "Hfs" in
  intros ? ? [-> Hfs]; unfold post; simpl; rewrite Hfs; assumption.

Section Installer.
Context (E : env).

(** [downloadFile], run on its own, touches no path but its destination. *)
Lemma loop_frame remaining url dest maxRetries attempt last w p :
  p <> dest ->
  fs (run (downloadFile_loop E remaining url dest maxRetries attempt last w)).2 !! p
  = fs w !! p.
Proof.
  intros Hne. revert attempt last w.
  induction remaining as [|r IH]; intros attempt last w; [done|].
  rewrite loop_step, run_bind.
  destruct (attempt_failure url (transport E url attempt)) as [e|] eqn:He.
  - destruct (iteration_fails E url dest maxRetries attempt e w He)
      as (tr & pre & Hrun & _ & _).
    rewrite Hrun, IH. simpl. by rewrite lookup_delete_ne.
  - destruct (iteration_succeeds E url dest maxRetries attempt w He) as [Hrun _].
    rewrite Hrun. simpl. by rewrite lookup_insert_ne.
Qed.

Lemma post_downloadFile url dest maxRetries w :
  post (downloadFile E url dest maxRetries) w
    (fun _ w1 => forall p, p <> dest -> fs w1 !! p = fs w !! p).
Proof. unfold post, downloadFile. intros p Hp. by apply loop_frame. Qed.

(** [extractFile] only adds entries. *)
Lemma post_extractFile filePath fileExtension tmpDir w :
  post (extractFile E filePath fileExtension tmpDir) w
    (fun _ w1 => forall p, is_Some (fs w !! p) -> is_Some (fs w1 !! p)).
Proof.
  unfold post. intros p Hp. unfold extractFile, bind, suspend, put_fs. simpl.
  destruct (fs w !! filePath) as [[data|]|]; simpl; try done.
  destruct (failed _); simpl; by apply write_entries_mono.
Qed.

(** The fate of the temporary workspace: gone, with all it held, when the
    task fulfils; still on disk when the task rejects. *)
Lemma workspace_fate platform arch extension targetTriple w :
  post (embeddingExternalBinaries E platform arch extension targetTriple) w
    (fun r w' =>
       match r with
       | inr _ => forall p, tmpDir_of E platform arch `prefix_of` p -> fs w' !! p = None
       | inl _ => is_Some (fs w' !! tmpDir_of E platform arch)
       end).
Proof.
  unfold embeddingExternalBinaries.
  set (tmpDir := tmpDir_of E platform arch).
  assert (tmpDir <> []) as Hne.
  { unfold tmpDir, tmpDir_of. by destruct (dirname__ E). }
  apply post_catch, post_bind.
  eapply post_mono; [apply post_ensure_dir|]. intros r w1 (-> & Hthere & _).
  specialize (Hthere Hne).
  apply post_bind. eapply post_mono; [apply post_console|]. intros r w2 [-> Hfs2].
  rewrite <- Hfs2 in Hthere. clear Hfs2 w1.
  apply post_bind. eapply post_mono; [apply post_downloadFile|]. intros r w3 Hframe.
  rewrite <- (Hframe tmpDir) in Hthere by (symmetry; apply app_cons_neq). clear Hframe w2.
  destruct r as [e|[]].
  { rejected_after_log. }
  apply post_bind. eapply post_mono; [apply post_extractFile|]. intros r w4 Hmono.
  apply Hmono in Hthere. clear Hmono w3.
  destruct r as [e|[]].
  { rejected_after_log. }
  apply post_bind. eapply post_mono; [apply post_ensure_dir|]. intros r w5 (-> & _ & Hmono).
  apply Hmono in Hthere. clear Hmono w4.
  apply post_bind. eapply post_mono; [apply post_renameSync|]. intros r w6 Hren.
  destruct r as [e|[]].
  { subst w6. rejected_after_log. }
  apply post_bind. eapply post_mono; [apply post_rmSync|]. intros r w7 [-> Hgone].
  unfold post. simpl. exact Hgone.
Qed.

Lemma post_downloadFile_exhausted url dest maxRetries w :
  1 <= maxRetries ->
  (forall n, 1 <= n <= maxRetries -> fails E url n) ->
  post (downloadFile E url dest maxRetries) w
    (fun r w1 => (exists e, r = inl e) /\ fs w1 !! dest = None).
Proof.
  intros Hmax Hall. unfold post, downloadFile.
  destruct (loop_exhausts E (Z.to_nat maxRetries) url dest maxRetries 1 None w)
    as (last' & w' & Hrun & _ & Hpos & _); [lia|lia|exact Hall|].
  destruct Hpos as (_ & _ & Hfs); [lia|].
  rewrite Hrun. simpl. split; [eauto|]. rewrite Hfs. apply lookup_delete_eq.
Qed.

Lemma post_downloadFile_first_try url dest maxRetries w :
  1 <= maxRetries ->
  attempt_failure url (transport E url 1) = None ->
  post (downloadFile E url dest maxRetries) w
    (fun r w1 => r = inr tt /\
                 fs w1 = <[dest := File (attempt_payload (transport E url 1))]> (fs w)).
Proof.
  intros Hmax Hok. unfold post, downloadFile.
  destruct (loop_succeeds E 0 (Z.to_nat maxRetries) url dest maxRetries 1 None w)
    as (tr & Hrun & _); [lia|lia|lia|intros; lia|done|].
  rewrite Hrun. done.
Qed.

(** A binary-installer task whose archive cannot be fetched rejects. *)
Lemma installer_rejects_on_fetch platform arch extension targetTriple w :
  (forall n, 1 <= n <= 3 -> fails E (downloadUrl_of E platform arch) n) ->
  post (embeddingExternalBinaries E platform arch extension targetTriple) w
    (fun r _ => exists e, r = inl e).
Proof.
  intros Hall. unfold embeddingExternalBinaries.
  apply post_catch, post_bind.
  eapply post_mono; [apply post_ensure_dir|]. intros r w1 (-> & _).
  apply post_bind. eapply post_mono; [apply post_console|]. intros r w2 [-> _].
  apply post_bind.
  eapply post_mono; [apply post_downloadFile_exhausted; [lia|exact Hall]|].
  intros r w3 [[e ->] _]. unfold post. simpl. eauto.
Qed.

(** A binary-installer task whose archive arrives at the first attempt but
    cannot be unpacked rejects. *)
Lemma installer_rejects_on_extract platform arch extension targetTriple w e :
  attempt_failure (downloadUrl_of E platform arch)
    (transport E (downloadUrl_of E platform arch) 1) = None ->
  failed (unpacker E platform
            (attempt_payload (transport E (downloadUrl_of E platform arch) 1))) = Some e ->
  post (embeddingExternalBinaries E platform arch extension targetTriple) w
    (fun r _ => r = inl e).
Proof.
  intros Hok Hbad. unfold embeddingExternalBinaries.
  apply post_catch, post_bind.
  eapply post_mono; [apply post_ensure_dir|]. intros r w1 (-> & _).
  apply post_bind. eapply post_mono; [apply post_console|]. intros r w2 [-> _].
  apply post_bind.
  eapply post_mono; [apply post_downloadFile_first_try; [lia|exact Hok]|].
  intros r w3 [-> Hfs]. apply post_bind.
  unfold post at 1, extractFile, bind, suspend, put_fs. simpl.
  rewrite Hfs, lookup_insert_eq. unfold unpacker in Hbad. rewrite Hbad. simpl.
  unfold post. simpl. done.
Qed.



(** C2 (as amended).  The temporary workspace of a binary-installer task is
    removed, with everything below it, when the task succeeds; when the task
    fails, at the fetch step, at the extraction step or at the move, the
    workspace is still on disk.  A fetch that fails three times and an
    archive that cannot be unpacked both make the task fail. *)
Theorem workspace_removed_only_on_success platform arch extension targetTriple w :
  let tmpDir := tmpDir_of E platform arch in
  let r := run (embeddingExternalBinaries E platform arch extension targetTriple w) in
  (r.1 = inr tt -> forall p, tmpDir `prefix_of` p -> fs r.2 !! p = None) /\
  (forall e, r.1 = inl e -> is_Some (fs r.2 !! tmpDir)) /\
  ((forall n, 1 <= n <= 3 -> fails E (downloadUrl_of E platform arch) n) ->
   exists e, r.1 = inl e) /\
  (forall e,
     attempt_failure (downloadUrl_of E platform arch)
       (transport E (downloadUrl_of E platform arch) 1) = None ->
     failed (unpacker E platform
               (attempt_payload (transport E (downloadUrl_of E platform arch) 1)))
       = Some e ->
     r.1 = inl e).
Proof.
  intros tmpDir r.
  pose proof (workspace_fate platform arch extension targetTriple w) as Hfate.
  unfold post in Hfate. fold r in Hfate. fold tmpDir in Hfate.
  repeat split.
  - intros Hr. by rewrite Hr in Hfate.
  - intros e Hr. by rewrite Hr in Hfate.
  - intros Hall.
    exact (installer_rejects_on_fetch platform arch extension targetTriple w Hall).
  - intros e Hok Hbad.
    exact (installer_rejects_on_extract platform arch extension targetTriple w e Hok Hbad).
Qed.


End Installer.

(** ** Properties that hold under every interleaving *)

Section Interleaved.
Context (R : world -> world -> Prop) `{!PreOrder R}.
Context (R_fs : forall w m, R w (World m (trace w))).
Context (R_emit : forall w ev, ~ is_check ev -> R w (World (fs w) (trace w ++ [ev]))).

Lemma sat_start {A} (Q : Error + A -> Prop) w0 w c :
  R w0 w -> sat R Q w c -> sat R Q w0 c.
Proof. destruct c; simpl; intros HR [H1 H2]; (split; [by etrans|done]). Qed.

Lemma sat_mono {A} (Q Q' : Error + A -> Prop) w0 c :
  (forall r, Q r -> Q' r) -> sat R Q w0 c -> sat R Q' w0 c.
Proof.
  intros HQ. revert w0. induction c as [r w|a w k IH]; intros w0; simpl.
  - intros [? ?]. auto.
  - intros [? Hk]. split; [done|]. intros w'. apply IH, Hk.
Qed.

Lemma sat_bind {A B} (Q1 : Error + A -> Prop) (Q2 : Error + B -> Prop)
    w0 (c : coro A) (f : A -> async B) :
  sat R Q1 w0 c ->
  (forall a w, Q1 (inr a) -> sat R Q2 w (f a w)) ->
  (forall e, Q1 (inl e) -> Q2 (inl e)) ->
  sat R Q2 w0 (bind_co c f).
Proof.
  revert w0. induction c as [[e|a] w|a w k IH]; intros w0; simpl.
  - intros [HR HQ] _ He. auto.
  - intros [HR HQ] Hf _. eapply sat_start; eauto.
  - intros [HR Hk] Hf He. split; [done|]. intros w'. apply IH; auto.
Qed.

Lemma sat_catch {A} (Q1 Q2 : Error + A -> Prop) w0 (c : coro A) (h : Error -> async A) :
  sat R Q1 w0 c ->
  (forall e w, Q1 (inl e) -> sat R Q2 w (h e w)) ->
  (forall a, Q1 (inr a) -> Q2 (inr a)) ->
  sat R Q2 w0 (catch_co c h).
Proof.
  revert w0. induction c as [[e|a] w|a w k IH]; intros w0; simpl.
  - intros [HR HQ] Hh _. eapply sat_start; eauto.
  - intros [HR HQ] _ Ha. auto.
  - intros [HR Hk] Hh Ha. split; [done|]. intros w'. apply IH; auto.
Qed.

(** What holds under every interleaving holds of the run on its own. *)
Lemma sat_run {A} (Q : Error + A -> Prop) w0 (c : coro A) :
  sat R Q w0 c -> R w0 (run c).2 /\ Q (run c).1.
Proof.
  revert w0. induction c as [r w|a w k IH]; intros w0; simpl; [done|].
  intros [HR Hk]. destruct (IH w w (Hk w)) as [HR' HQ]. split; [by etrans|done].
Qed.

(** *** Building blocks *)

Lemma fulfils_any {A} (r : Error + A) : fulfils r -> any r.
Proof. done. Qed.

Lemma rejects_any {A} (r : Error + A) : rejects r -> any r.
Proof. done. Qed.

Lemma tame_bind {A B} (m : async A) (f : A -> async B) :
  (forall w, sat R any w (m w)) ->
  (forall a w, sat R any w (f a w)) ->
  forall w, sat R any w (bind m f w).
Proof. intros Hm Hf w. unfold bind. eapply sat_bind; eauto. Qed.

Lemma tame_catch {A} (m : async A) (h : Error -> async A) :
  (forall w, sat R any w (m w)) ->
  (forall e w, sat R any w (h e w)) ->
  forall w, sat R any w (try_catch m h w).
Proof. intros Hm Hh w. unfold try_catch. eapply sat_catch; eauto. Qed.

Lemma fulfils_bind {A B} (m : async A) (f : A -> async B) :
  (forall w, sat R fulfils w (m w)) ->
  (forall a w, sat R fulfils w (f a w)) ->
  forall w, sat R fulfils w (bind m f w).
Proof.
  intros Hm Hf w. unfold bind. eapply sat_bind; eauto.
  intros e [a Ha]. discriminate.
Qed.

(** A sequence rejects when its first part does, *)
Lemma rejects_bind_l {A B} (m : async A) (f : A -> async B) :
  (forall w, sat R rejects w (m w)) ->
  forall w, sat R (@rejects B) w (bind m f w).
Proof.
  intros Hm w. unfold bind. eapply sat_bind; eauto.
  - intros a w' [e He]. discriminate.
  - intros e _. by exists e.
Qed.

(** and when its second part does, whatever the first part does. *)
Lemma rejects_bind_r {A B} (m : async A) (f : A -> async B) :
  (forall w, sat R any w (m w)) ->
  (forall a w, sat R rejects w (f a w)) ->
  forall w, sat R rejects w (bind m f w).
Proof.
  intros Hm Hf w. unfold bind. eapply sat_bind; eauto.
  intros e _. by exists e.
Qed.

Lemma fulfils_ret {A} (a : A) w : sat R fulfils w (ret a w).
Proof. simpl. split; [done|]. by exists a. Qed.

Lemma rejects_throw {A} e w : sat R (@rejects A) w (throw e w).
Proof. simpl. split; [done|]. by exists e. Qed.

Lemma fulfils_emit ev w : ~ is_check ev -> sat R fulfils w (emit ev w).
Proof. intros Hev. simpl. split; [by apply R_emit|]. by exists tt. Qed.

Lemma fulfils_console lvl text w : sat R fulfils w (console lvl text w).
Proof. apply fulfils_emit. by intros []. Qed.

Lemma fulfils_suspend a w : sat R fulfils w (suspend a w).
Proof. simpl. split; [done|]. intros w'. split; [done|]. by exists tt. Qed.

Lemma fulfils_put_fs m w : sat R fulfils w (put_fs m w).
Proof. simpl. split; [apply R_fs|]. by exists tt. Qed.

Lemma fulfils_existsSync d w : sat R fulfils w (existsSync d w).
Proof. simpl. split; [done|]. by eexists. Qed.

Lemma fulfils_unlinkSync d w : sat R fulfils w (unlinkSync d w).
Proof. apply fulfils_put_fs. Qed.

Lemma fulfils_ensure_dir d w : sat R fulfils w (ensure_dir d w).
Proof.
  apply fulfils_bind; [apply fulfils_existsSync|].
  intros [] w1; [apply fulfils_ret|apply fulfils_put_fs].
Qed.

Lemma fulfils_rmSync d w : sat R fulfils w (rmSync_recursive d w).
Proof. apply fulfils_put_fs. Qed.

Lemma tame_renameSync src dst w : sat R any w (renameSync src dst w).
Proof.
  unfold renameSync. destruct (fs w !! src).
  - eapply sat_mono; [apply fulfils_any|apply fulfils_put_fs].
  - simpl. done.
Qed.

#[local] Hint Resolve fulfils_any rejects_any : core.

Ltac tame_prim :=
  first
    [ apply tame_renameSync
    | solve [ simpl; done ]
    | (eapply sat_mono; [apply fulfils_any|]);
      first [ apply fulfils_console | apply fulfils_suspend | apply fulfils_put_fs
            | apply fulfils_ensure_dir | apply fulfils_rmSync | apply fulfils_ret
            | apply fulfils_existsSync | apply fulfils_unlinkSync
            | (apply fulfils_emit; by intros []) ] ].

Ltac tame_by tac :=
  repeat first [ progress intros | tame_prim | tac | apply tame_bind | apply tame_catch ].

Ltac tame := tame_by fail.

Context (E : env).

(** *** Every function of the script is tame *)

Lemma fulfils_downloadFile_catch url dest maxRetries attempt err w :
  sat R fulfils w (downloadFile_catch url dest maxRetries attempt err w).
Proof.
  unfold downloadFile_catch.
  apply fulfils_bind; [apply fulfils_existsSync|]. intros present w1.
  apply fulfils_bind.
  { intros w2. destruct present; [apply fulfils_unlinkSync|apply fulfils_ret]. }
  intros _ w2. destruct (attempt <? maxRetries); [|apply fulfils_ret].
  apply fulfils_bind; [apply fulfils_console|]. intros _ w3. apply fulfils_suspend.
Qed.

Lemma tame_streamPipeline b dest w : sat R any w (streamPipeline b dest w).
Proof. unfold streamPipeline. tame. destruct (broke b); tame. Qed.

Lemma tame_downloadFile_try url dest attempt w :
  sat R any w (downloadFile_try E url dest attempt w).
Proof.
  unfold downloadFile_try. tame.
  destruct (transport E url attempt) as [e|ok st body]; [tame|].
  destruct ok; simpl; [|tame].
  destruct body as [b|]; [apply tame_streamPipeline|tame].
Qed.

Lemma tame_downloadFile url dest maxRetries w :
  sat R any w (downloadFile E url dest maxRetries w).
Proof.
  unfold downloadFile. generalize 1 (@None Error) w.
  induction (Z.to_nat maxRetries) as [|r IH]; intros attempt last w'; [tame|].
  rewrite loop_step. eapply sat_bind with (Q1 := any); [| |done].
  - unfold downloadFile_iteration. apply tame_catch.
    + apply tame_bind; [apply tame_downloadFile_try|tame].
    + intros e w1. apply tame_bind; [|tame].
      intros w2. eapply sat_mono; [apply fulfils_any|apply fulfils_downloadFile_catch].
  - intros [e|] w1 _; [apply IH|tame].
Qed.

Lemma tame_extractFile filePath fileExtension tmpDir w :
  sat R any w (extractFile E filePath fileExtension tmpDir w).
Proof.
  unfold extractFile. tame.
  destruct (fs w0 !! filePath) as [[data|]|]; [|tame..].
  tame. destruct (failed _); tame.
Qed.

Lemma tame_embeddingExternalBinaries platform arch extension targetTriple w :
  sat R any w (embeddingExternalBinaries E platform arch extension targetTriple w).
Proof.
  unfold embeddingExternalBinaries.
  tame_by ltac:(first [apply tame_downloadFile | apply tame_extractFile]).
Qed.

Lemma tame_sysproxy_task targetTriple extension w :
  sat R any w (sysproxy_task E targetTriple extension w).
Proof. unfold sysproxy_task. tame_by ltac:(apply tame_downloadFile). Qed.

Lemma tame_database_task dbFile w : sat R any w (database_task E dbFile w).
Proof. unfold database_task. tame_by ltac:(apply tame_downloadFile). Qed.

(** *** A download that is bound to fail *)

Lemma rejects_downloadFile_try url dest attempt w :
  fails E url attempt ->
  sat R rejects w (downloadFile_try E url dest attempt w).
Proof.
  intros [e He]. unfold downloadFile_try.
  apply rejects_bind_r; [tame|]. intros _ w1.
  apply rejects_bind_r; [tame|]. intros _ w2.
  unfold attempt_failure in He.
  destruct (transport E url attempt) as [e'|ok st body]; [apply rejects_throw|].
  destruct ok; simpl in *; [|apply rejects_throw].
  destruct body as [b|]; [|apply rejects_throw].
  unfold streamPipeline.
  apply rejects_bind_r; [tame|]. intros _ w3.
  apply rejects_bind_r; [tame|]. intros _ w4.
  rewrite He. apply rejects_throw.
Qed.

Lemma caught_downloadFile_iteration url dest maxRetries attempt w :
  fails E url attempt ->
  sat R (fun r => exists e, r = inr (Some e)) w
    (downloadFile_iteration E url dest maxRetries attempt w).
Proof.
  intros Hf. unfold downloadFile_iteration, try_catch.
  eapply sat_catch with (Q1 := rejects).
  - apply rejects_bind_l. intros w1. by apply rejects_downloadFile_try.
  - intros e w1 _. unfold bind.
    eapply sat_bind; [apply fulfils_downloadFile_catch| |].
    + intros _ w2 _. simpl. split; [done|eauto].
    + intros e' [a Ha]. discriminate.
  - intros a [e He]. discriminate.
Qed.

Lemma rejects_downloadFile_loop remaining url dest maxRetries attempt last w :
  (forall n, attempt <= n < attempt + Z.of_nat remaining -> fails E url n) ->
  sat R rejects w (downloadFile_loop E remaining url dest maxRetries attempt last w).
Proof.
  revert attempt last w.
  induction remaining as [|r IH]; intros attempt last w Hall; [apply rejects_throw|].
  rewrite loop_step.
  eapply sat_bind; [apply caught_downloadFile_iteration, Hall; lia| |].
  - intros [e|] w1 [e' He']; [|discriminate]. apply IH. intros n Hn. apply Hall. lia.
  - intros e [e' He']. discriminate.
Qed.

Lemma rejects_downloadFile url dest w :
  (forall n, 1 <= n <= 3 -> fails E url n) ->
  sat R rejects w (downloadFile E url dest 3 w).
Proof.
  intros Hall. apply rejects_downloadFile_loop. intros n Hn. apply Hall. lia.
Qed.


Lemma rejects_database_task dbFile w :
  (forall n, 1 <= n <= 3 -> fails E dbFile.2 n) ->
  sat R rejects w (database_task E dbFile w).
Proof.
  intros Hall. unfold database_task.
  apply rejects_bind_r; [tame|]. intros _ w1.
  apply rejects_bind_l. intros w2. by apply rejects_downloadFile.
Qed.

(** *** Promises *)

Lemma park_sat Q w0 c :
  sat R Q w0 c -> R w0 (park c).2 /\ promise_sat R Q (park c).1.
Proof. destruct c as [[e|[]] w|a w k]; simpl; intros [HR HQ]; done. Qed.

Lemma resume_sat Q p w :
  promise_sat R Q p -> R w (resume p w).2 /\ promise_sat R Q (resume p w).1.
Proof.
  destruct p as [|e|a k]; simpl; [done..|].
  intros Hk. apply park_sat, Hk.
Qed.

Lemma resume_nth_sat i ps w :
  Forall (promise_sat R any) ps ->
  R w (resume_nth i ps w).2 /\ Forall (promise_sat R any) (resume_nth i ps w).1.
Proof.
  intros Hall. unfold resume_nth.
  destruct (ps !! i) as [p|] eqn:Hp; [|done].
  destruct (resume_sat any p w) as [HR Hp'].
  { eapply Forall_lookup_1; eauto. }
  destruct (resume p w) as [p' w']. simpl in *.
  split; [done|]. by apply Forall_insert.
Qed.

Lemma resume_nth_doomed i ps w :
  Exists (promise_sat R rejects) ps ->
  Exists (promise_sat R rejects) (resume_nth i ps w).1.
Proof.
  intros Hex. apply Exists_exists in Hex as (q & Hq & Hdoom).
  apply list_elem_of_lookup in Hq as [j Hj].
  unfold resume_nth. destruct (ps !! i) as [p|] eqn:Hp.
  - destruct (resume p w) as [p' w'] eqn:Hres. simpl.
    apply Exists_exists. destruct (decide (i = j)) as [->|Hne].
    + exists p'. split.
      * eapply list_elem_of_lookup_2. apply list_lookup_insert_eq.
        by eapply lookup_lt_Some.
      * rewrite Hj in Hp. simplify_eq.
        destruct (resume_sat rejects p w Hdoom) as [_ Hd]. by rewrite Hres in Hd.
    + exists q. split; [|done].
      eapply list_elem_of_lookup_2. by rewrite list_lookup_insert_ne.
  - simpl. apply Exists_exists. exists q. split; [|done].
    by eapply list_elem_of_lookup_2.
Qed.

Lemma start_sat Q (m : async unit) w :
  (forall w', sat R Q w' (m w')) ->
  sat R (fun r => exists p, r = inr p /\ promise_sat R Q p) w (start m w).
Proof.
  intros Hm. unfold start. destruct (park_sat Q w (m w) (Hm w)) as [HR Hp].
  destruct (park (m w)) as [p w']. simpl in *. eauto.
Qed.

Lemma start_each_tame ms w :
  Forall (fun m : async unit => forall w', sat R any w' (m w')) ms ->
  sat R (fun r => exists ps, r = inr ps /\ Forall (promise_sat R any) ps) w
    (start_each ms w).
Proof.
  intros Hall. revert w. induction Hall as [|m ms Hm Hms IH]; intros w.
  - simpl. split; [done|]. eauto.
  - simpl. unfold bind.
    eapply sat_bind; [apply (start_sat any), Hm| |].
    + intros p w1 (p' & [= <-] & Hp).
      eapply sat_bind; [apply IH| |].
      * intros ps w2 (ps' & [= <-] & Hps). simpl. split; [done|]. eauto.
      * intros e (ps' & Hps & _). discriminate.
    + intros e (p' & Hp & _). discriminate.
Qed.

Lemma start_each_doomed ms w :
  Forall (fun m : async unit => forall w', sat R any w' (m w')) ms ->
  Exists (fun m : async unit => forall w', sat R rejects w' (m w')) ms ->
  sat R (fun r => exists ps, r = inr ps /\ Forall (promise_sat R any) ps /\
                             Exists (promise_sat R rejects) ps) w
    (start_each ms w).
Proof.
  intros Hall Hex. revert w.
  induction Hall as [|m ms Hm Hms IH]; intros w; [by apply Exists_nil in Hex|].
  simpl. unfold bind. apply Exists_cons in Hex as [Hdoom|Hex].
  - eapply sat_bind; [apply (start_sat rejects), Hdoom| |].
    + intros p w1 (p' & [= <-] & Hp).
      eapply sat_bind; [apply start_each_tame, Hms| |].
      * intros ps w2 (ps' & [= <-] & Hps). simpl. split; [done|].
        exists (p :: ps). split; [done|]. split.
        -- constructor; [|done]. destruct p; simpl in *; [done..|].
           intros w'. eapply sat_mono; [apply rejects_any|apply Hp].
        -- by apply Exists_cons_hd.
      * intros e (ps' & Hps & _). discriminate.
    + intros e (p' & Hp & _). discriminate.
  - eapply sat_bind; [apply (start_sat any), Hm| |].
    + intros p w1 (p' & [= <-] & Hp).
      eapply sat_bind; [apply IH, Hex| |].
      * intros ps w2 (ps' & [= <-] & Hps & Hd). simpl. split; [done|].
        exists (p :: ps). split; [done|]. split; [by constructor|].
        by apply Exists_cons_tl.
      * intros e (ps' & Hps & _). discriminate.
    + intros e (p' & Hp & _). discriminate.
Qed.

(** *** [Promise.all] *)

Lemma await_promise_sat Q p w : promise_sat R Q p -> sat R Q w (await_promise p w).
Proof. destruct p; simpl; done. Qed.

Lemma await_each_tame ps w :
  Forall (promise_sat R any) ps -> sat R any w (await_each ps w).
Proof.
  intros Hall. revert w. induction Hall as [|p ps Hp Hps IH]; intros w; [tame|].
  simpl. apply tame_bind; [|done]. intros w1. by apply await_promise_sat.
Qed.

Lemma await_each_doomed ps w :
  Forall (promise_sat R any) ps ->
  Exists (promise_sat R rejects) ps ->
  sat R rejects w (await_each ps w).
Proof.
  intros Hall Hex. revert w.
  induction Hall as [|p ps Hp Hps IH]; intros w; [by apply Exists_nil in Hex|].
  simpl. apply Exists_cons in Hex as [Hdoom|Hex].
  - apply rejects_bind_l. intros w1. by apply await_promise_sat.
  - apply rejects_bind_r; [intros w1; by apply await_promise_sat|].
    intros _ w1. by apply IH.
Qed.

Lemma all_fulfilled_not_doomed ps :
  all_fulfilled ps = true -> Exists (promise_sat R rejects) ps -> False.
Proof.
  intros Hall Hex. apply Exists_exists in Hex as (p & Hp & Hdoom).
  unfold all_fulfilled in Hall. rewrite forallb_forall in Hall.
  apply list_elem_of_In in Hp. specialize (Hall p Hp).
  destruct p; try discriminate. destruct Hdoom as [e He]. discriminate.
Qed.

Lemma Promise_all_tame sched ps w :
  Forall (promise_sat R any) ps -> sat R any w (Promise_all sched ps w).
Proof.
  revert ps w. induction sched as [|i sched IH]; intros ps w Hall; simpl.
  - destruct (first_rejected ps); [done|].
    destruct (all_fulfilled ps); [done|]. by apply await_each_tame.
  - destruct (first_rejected ps); [done|].
    destruct (all_fulfilled ps); [done|]. simpl. split; [done|]. intros w'.
    destruct (resume_nth_sat i ps w' Hall) as [HR Hall'].
    destruct (resume_nth i ps w') as [ps' w'']. simpl in *.
    eapply sat_start; [exact HR|]. by apply IH.
Qed.

(** An aggregate with a member that is bound to reject is bound to reject,
    whatever the schedule. *)
Lemma Promise_all_doomed sched ps w :
  Forall (promise_sat R any) ps ->
  Exists (promise_sat R rejects) ps ->
  sat R rejects w (Promise_all sched ps w).
Proof.
  revert ps w. induction sched as [|i sched IH]; intros ps w Hall Hex; simpl.
  - destruct (first_rejected ps) as [e|]; [simpl; split; [done|by exists e]|].
    destruct (all_fulfilled ps) eqn:Hful;
      [by destruct (all_fulfilled_not_doomed ps)|].
    by apply await_each_doomed.
  - destruct (first_rejected ps) as [e|]; [simpl; split; [done|by exists e]|].
    destruct (all_fulfilled ps) eqn:Hful;
      [by destruct (all_fulfilled_not_doomed ps)|].
    simpl. split; [done|]. intros w'.
    destruct (resume_nth_sat i ps w' Hall) as [HR Hall'].
    pose proof (resume_nth_doomed i ps w' Hex) as Hex'.
    destruct (resume_nth i ps w') as [ps' w'']. simpl in *.
    eapply sat_start; [exact HR|]. by apply IH.
Qed.

(** *** The two groups and the module body *)

Lemma matrix_tasks_tame matrix :
  Forall (fun m : async unit => forall w', sat R any w' (m w')) (matrix_tasks E matrix).
Proof.
  apply Forall_forall. intros m Hm. unfold matrix_tasks in Hm.
  apply list_elem_of_join in Hm as (l & Hm & Hl).
  apply list_elem_of_fmap in Hl as ([platform archs] & -> & _).
  apply list_elem_of_join in Hm as (l & Hm & Hl).
  apply list_elem_of_fmap in Hl as ([arch targetTriple] & -> & _).
  unfold target_tasks in Hm. simpl in Hm.
  apply elem_of_cons in Hm as [->|Hm].
  - intros w'. apply tame_embeddingExternalBinaries.
  - case_decide; [|by apply elem_of_nil in Hm].
    apply list_elem_of_singleton in Hm as ->. intros w'. apply tame_sysproxy_task.
Qed.


Lemma tame_binaries matrix sched w :
  sat R any w (downloadEmbeddingExternalBinaries_over E matrix sched w).
Proof.
  unfold downloadEmbeddingExternalBinaries_over, bind.
  eapply sat_bind; [apply start_each_tame, matrix_tasks_tame| |done].
  intros ps w1 (ps' & [= <-] & Hps). by apply Promise_all_tame.
Qed.


Lemma database_tasks_tame files :
  Forall (fun m : async unit => forall w', sat R any w' (m w')) (database_task E <$> files).
Proof.
  apply Forall_forall. intros m Hm.
  apply list_elem_of_fmap in Hm as (dbFile & -> & _).
  intros w'. apply tame_database_task.
Qed.

Lemma tame_databases files sched w :
  sat R any w (downloadDatabaseFiles_over E files sched w).
Proof.
  unfold downloadDatabaseFiles_over. apply tame_bind; [tame|]. intros _ w1.
  unfold bind.
  eapply sat_bind; [apply start_each_tame, database_tasks_tame| |done].
  intros ps w2 (ps' & [= <-] & Hps). by apply Promise_all_tame.
Qed.

Lemma rejects_databases files sched w dbFile :
  dbFile ∈ files ->
  (forall n, 1 <= n <= 3 -> fails E dbFile.2 n) ->
  sat R rejects w (downloadDatabaseFiles_over E files sched w).
Proof.
  intros Hin Hall. unfold downloadDatabaseFiles_over.
  apply rejects_bind_r; [tame|]. intros _ w1. unfold bind.
  eapply sat_bind; [apply start_each_doomed; [apply database_tasks_tame|]| |].
  - apply Exists_exists. exists (database_task E dbFile).
    split; [by apply list_elem_of_fmap_2|].
    intros w'. by apply rejects_database_task.
  - intros ps w2 (ps' & [= <-] & Hps & Hex). by apply Promise_all_doomed.
  - intros e (ps' & Hps & _). discriminate.
Qed.

Lemma tame_downloads matrix files s w : sat R any w (downloads E matrix files s w).
Proof.
  unfold downloads. apply tame_bind; [tame|]. intros _ w1. unfold bind.
  eapply sat_bind; [apply (start_sat any); intros; apply tame_binaries| |done].
  intros p1 w2 (p & [= <-] & Hp1).
  eapply sat_bind; [apply (start_sat any); intros; apply tame_databases| |done].
  intros p2 w3 (p & [= <-] & Hp2).
  apply tame_catch; [|tame]. apply tame_bind; [|tame].
  intros w4. apply Promise_all_tame. by repeat constructor.
Qed.


End Interleaved.

(** ** The orchestrator *)

#[local] Instance unconstrained_preorder : PreOrder unconstrained.
Proof. split; done. Qed.

#[local] Instance extends_preorder : PreOrder extends.
Proof.
  split.
  - intros w. exists []. by rewrite app_nil_r.
  - intros w1 w2 w3 (l1 & H1 & Hq1) (l2 & H2 & Hq2). exists (l1 ++ l2).
    split; [by rewrite H2, H1, app_assoc|by apply Forall_app].
Qed.

Lemma extends_fs w m : extends w (World m (trace w)).
Proof. exists []. by rewrite app_nil_r. Qed.

Lemma extends_emit w ev : ~ is_check ev -> extends w (World (fs w) (trace w ++ [ev])).
Proof. intros Hev. exists [ev]. split; [done|]. by constructor. Qed.

Lemma script_over_unfold E matrix files s w :
  script_over E matrix files s w =
  let v := SING_BOX_VERSION E in
  let found := bool_decide (v ∈ SkipVersionList) in
  let w1 := World (fs w) (trace w ++ [EvIncludes v found]) in
  if found then
    Settled (inl (mkError ("Version " +:+ v +:+ " is in the skip list.")))
      (World (fs w) (trace w1 ++ [EvConsole Log ("Skipping download for version " +:+ v)]))
  else downloads E matrix files s w1.
Proof.
  unfold script_over, bind. simpl. destruct (bool_decide _); reflexivity.
Qed.

Lemma execute_world (main : async Z) w : (execute main w).2 = (run (main w)).2.
Proof. unfold execute. by destruct (run (main w)) as [[e|code] w']. Qed.




(** C6.  When the configured version is on the skip-list the module body
    settles synchronously: it is never parked, so no task was started and
    nothing was requested; its whole effect is the membership test and one
    console line, the exception it raises is uncaught and the process exits
    with status 1.  In every run, skipped or not, the membership test is the
    first thing that happens and it happens once. *)
Theorem skip_list_checked_once_before_any_task E matrix files s w :
  let v := SING_BOX_VERSION E in
  (v ∈ SkipVersionList ->
   script_over E matrix files s w
   = Settled (inl (mkError ("Version " +:+ v +:+ " is in the skip list.")))
       (World (fs w)
          (trace w ++ [EvIncludes v true;
                       EvConsole Log ("Skipping download for version " +:+ v)])) /\
   exit_status (execute (script_over E matrix files s) w).1 = 1) /\
  (exists rest,
     trace (execute (script_over E matrix files s) w).2
     = trace w ++ EvIncludes v (bool_decide (v ∈ SkipVersionList)) :: rest /\
     Forall (fun ev => ~ is_check ev) rest).
Proof.
  intros v. split.
  - intros Hin. unfold execute. rewrite script_over_unfold. simpl.
    rewrite (bool_decide_eq_true_2 _ Hin). simpl. split; [|done].
    by rewrite <- app_assoc.
  - rewrite execute_world, script_over_unfold. simpl. fold v.
    destruct (bool_decide (v ∈ SkipVersionList)).
    + simpl. exists [EvConsole Log ("Skipping download for version " +:+ v)].
      split; [by rewrite <- app_assoc|]. constructor; [by intros []|done].
    + set (w1 := World (fs w) (trace w ++ [EvIncludes v false])).
      assert (sat extends any w1 (downloads E matrix files s w1)) as Hsat.
      { apply tame_downloads; [typeclasses eauto|apply extends_fs|apply extends_emit]. }
      apply sat_run in Hsat as [Hext _]; [|typeclasses eauto].
      destruct Hext as (rest & Htr & Hq). exists rest. split; [|done].
      rewrite Htr. simpl. by rewrite <- app_assoc.
Qed.

(** C8 (as amended).  The installer's first request goes to the URL made of
    the release base URL, the configured version as it is (the release tag
    keeps its leading marker), and the archive name, in which the version
    appears without its first character, followed by the platform, the
    architecture and the archive extension. *)
Theorem downloadUrl_template E platform arch extension targetTriple w marker rest :
  SING_BOX_VERSION E = String marker rest ->
  downloadUrl_of E platform arch
  = GITHUB_RELEASE_URL +:+ String marker rest +:+ "/sing-box-" +:+ rest +:+ "-"
    +:+ platform_name platform +:+ "-" +:+ arch_name arch
    +:+ (if decide (platform = windows) then ".zip" else ".tar.gz") /\
  exists w1 k,
    embeddingExternalBinaries E platform arch extension targetTriple w
    = Pending (OnFetch (downloadUrl_of E platform arch)) w1 k.
Proof.
  intros Hv. split.
  - unfold downloadUrl_of, fileExtension_of. rewrite Hv.
    destruct platform, arch; reflexivity.
  - unfold embeddingExternalBinaries, try_catch, bind.
    destruct (ensure_dir_spec (tmpDir_of E platform arch) w) as (w1 & -> & _).
    simpl. eauto.
Qed.

(** ** The statements on concrete runs *)

Lemma unreachable_fails url n :
  String.eqb url asset_url = false -> fails archive_unreachable url n.
Proof. intros Hne. unfold fails. simpl. rewrite Hne. simpl. by eexists. Qed.



(** C2, counterexample.  A task whose archive fetch fails three times, and
    a task whose archive cannot be unpacked, both end with their workspace
    directory still on disk. *)
Lemma workspace_left_after_failure :
  let tmpDir := ["scripts"; "tmp"; "linux-amd64-1700000000000-k3x9q"] in
  let fetch_failed :=
    run (embeddingExternalBinaries archive_unreachable linux amd64 ""
           "x86_64-unknown-linux-gnu" empty_disk) in
  let extract_failed :=
    run (embeddingExternalBinaries archive_corrupt linux amd64 ""
           "x86_64-unknown-linux-gnu" empty_disk) in
  tmpDir_of archive_unreachable linux amd64 = tmpDir /\
  fetch_failed.1
    = inl (exhausted (downloadUrl_of archive_unreachable linux amd64) 3 (Some refused)) /\
  fs fetch_failed.2 !! tmpDir = Some Dir /\
  extract_failed.1 = inl (mkError "TAR_BAD_ARCHIVE: Unrecognized archive format") /\
  fs extract_failed.2 !! tmpDir = Some Dir.
Proof. by vm_compute. Qed.

Lemma workspace_removed_only_on_success_witness :
  (let r := run (embeddingExternalBinaries flaky linux amd64 ""
                   "x86_64-unknown-linux-gnu" empty_disk) in
   r.1 = inr tt /\
   fs r.2 !! (tmpDir_of flaky linux amd64 ++ ["sing-box-linux-amd64.tar.gz"]) = None) /\
  (let r := run (embeddingExternalBinaries archive_unreachable linux amd64 ""
                   "x86_64-unknown-linux-gnu" empty_disk) in
   (forall n, 1 <= n <= 3 ->
      fails archive_unreachable (downloadUrl_of archive_unreachable linux amd64) n) /\
   (exists e, r.1 = inl e) /\
   is_Some (fs r.2 !! tmpDir_of archive_unreachable linux amd64)) /\
  (let r := run (embeddingExternalBinaries archive_corrupt linux amd64 ""
                   "x86_64-unknown-linux-gnu" empty_disk) in
   r.1 = inl (mkError "TAR_BAD_ARCHIVE: Unrecognized archive format")).
Proof.
  split; [|split].
  - intros r. assert (r.1 = inr tt) as Hr by (by vm_compute). split; [exact Hr|].
    apply (proj1 (workspace_removed_only_on_success flaky linux amd64 ""
                    "x86_64-unknown-linux-gnu" empty_disk) Hr).
    by apply prefix_app_r.
  - intros r.
    assert (forall n, 1 <= n <= 3 ->
              fails archive_unreachable (downloadUrl_of archive_unreachable linux amd64) n)
      as Hall by (intros n _; by apply unreachable_fails).
    split; [exact Hall|].
    destruct (workspace_removed_only_on_success archive_unreachable linux amd64 ""
                "x86_64-unknown-linux-gnu" empty_disk) as (_ & Hkept & Hfetch & _).
    destruct (Hfetch Hall) as [e He]. split; [by exists e|]. exact (Hkept e He).
  - intros r.
    apply (workspace_removed_only_on_success archive_corrupt linux amd64 ""
             "x86_64-unknown-linux-gnu" empty_disk); reflexivity.
Defined.






Lemma downloadFile_without_attempts_witness :
  0 <= 0 /\
  downloadFile flaky "u" ["out.bin"] 0 installed
  = Settled (inl (mkError "Download failed after 0 attempts: 'u'. Last error: undefined"))
      installed.
Proof.
  split; [lia|]. apply (downloadFile_without_attempts flaky "u" ["out.bin"] 0 installed).
  lia.
Defined.


Lemma skip_list_checked_once_before_any_task_witness :
  SING_BOX_VERSION skipped_version ∈ SkipVersionList /\
  script_over skipped_version RUST_TARGET_TRIPLES dbFiles binaries_first empty_disk
  = Settled (inl (mkError "Version v1.12.5 is in the skip list."))
      (World ∅ [EvIncludes "v1.12.5" true;
                EvConsole Log "Skipping download for version v1.12.5"]) /\
  exit_status
    (execute (script_over skipped_version RUST_TARGET_TRIPLES dbFiles binaries_first)
       empty_disk).1 = 1.
Proof.
  assert (SING_BOX_VERSION skipped_version ∈ SkipVersionList) as Hin
    by apply list_elem_of_here.
  split; [exact Hin|].
  exact (proj1 (skip_list_checked_once_before_any_task skipped_version
                  RUST_TARGET_TRIPLES dbFiles binaries_first empty_disk) Hin).
Defined.

(** C8, counterexample.  With version [v1.12.0] the URL for linux/amd64
    carries the version twice; the first occurrence, the release tag, has
    kept its leading [v]. *)
Lemma release_tag_keeps_marker :
  downloadUrl_of archive_unreachable linux amd64
  = "https://github.com/caocaocc/sing-box/releases/download/v1.12.0/sing-box-1.12.0-linux-amd64.tar.gz" /\
  downloadUrl_of archive_unreachable linux amd64
  <> downloadUrl_all_stripped archive_unreachable linux amd64.
Proof.
  split; [reflexivity|]. intros Heq.
  apply (f_equal String.length) in Heq. vm_compute in Heq. discriminate.
Qed.

Lemma downloadUrl_template_witness :
  SING_BOX_VERSION archive_unreachable = String "v"%char "1.12.0" /\
  downloadUrl_of archive_unreachable linux amd64
  = "https://github.com/caocaocc/sing-box/releases/download/v1.12.0/sing-box-1.12.0-linux-amd64.tar.gz".
Proof.
  split; [reflexivity|].
  apply (downloadUrl_template archive_unreachable linux amd64 ""
           "x86_64-unknown-linux-gnu" empty_disk "v"%char "1.12.0").
  reflexivity.
Defined.

(** * Further properties of the script *)

(** ** [downloadFile] *)

Lemma requests_app l1 l2 : requests (l1 ++ l2) = requests l1 ++ requests l2.
Proof. apply omap_app. Qed.

Section FetcherMore.
Context (E : env).

Lemma try_block_requests url dest attempt w :
  requests (trace (run (downloadFile_try E url dest attempt w)).2)
  = requests (trace w) ++ [url].
Proof.
  unfold downloadFile_try, bind, emit, suspend, streamPipeline, bind, put_fs. simpl.
  destruct (transport E url attempt) as [e|ok st body]; simpl.
  - by rewrite requests_app.
  - destruct ok; simpl; [|by rewrite requests_app].
    destruct body as [[data [e|]]|]; simpl; by rewrite requests_app.
Qed.

Lemma catch_block_requests url dest maxRetries attempt err w :
  requests (trace (run (downloadFile_catch url dest maxRetries attempt err w)).2)
  = requests (trace w).
Proof.
  unfold downloadFile_catch, bind, existsSync, unlinkSync, console, emit, put_fs, suspend.
  simpl. case_bool_decide; simpl; destruct (attempt <? maxRetries); simpl;
    rewrite ?requests_app; simpl; by rewrite ?app_nil_r.
Qed.

Lemma iteration_requests url dest maxRetries attempt w :
  requests (trace (run (downloadFile_iteration E url dest maxRetries attempt w)).2)
  = requests (trace w) ++ [url].
Proof.
  unfold downloadFile_iteration, try_catch, bind. rewrite run_catch, run_bind.
  pose proof (try_block_requests url dest attempt w) as Htry.
  destruct (run (downloadFile_try E url dest attempt w)) as [[e|[]] w1]; simpl in *;
    [|done].
  rewrite run_bind.
  pose proof (catch_block_requests url dest maxRetries attempt e w1) as Hcatch.
  destruct (run (downloadFile_catch url dest maxRetries attempt e w1)) as [[e'|[]] w2];
    simpl in *; by rewrite Hcatch.
Qed.

Lemma loop_requests remaining url dest maxRetries attempt last w :
  exists j : nat,
    (j <= remaining)%nat /\
    requests (trace (run (downloadFile_loop E remaining url dest maxRetries attempt
                            last w)).2)
    = requests (trace w) ++ replicate j url.
Proof.
  revert attempt last w. induction remaining as [|r IH]; intros attempt last w.
  - exists 0%nat. simpl. by rewrite app_nil_r.
  - rewrite loop_step, run_bind.
    pose proof (iteration_requests url dest maxRetries attempt w) as Hit.
    destruct (run (downloadFile_iteration E url dest maxRetries attempt w))
      as [[e|[e|]] w1]; simpl in *.
    + exists 1%nat. split; [lia|done].
    + destruct (IH (attempt + 1) (Some e) w1) as (j & Hj & Hreq).
      exists (S j). split; [lia|]. rewrite Hreq, Hit, <- app_assoc. done.
    + exists 1%nat. split; [lia|done].
Qed.

(** Among the attempts still allowed, either all fail or there is a first
    one that succeeds. *)
Lemma attempts_cases url (remaining : nat) (attempt : Z) :
  (forall n, attempt <= n < attempt + Z.of_nat remaining -> fails E url n) \/
  (exists k : nat,
     (k < remaining)%nat /\
     (forall n, attempt <= n < attempt + Z.of_nat k -> fails E url n) /\
     attempt_failure url (transport E url (attempt + Z.of_nat k)) = None).
Proof.
  revert attempt. induction remaining as [|r IH]; intros attempt.
  - left. intros n Hn. lia.
  - destruct (attempt_failure url (transport E url attempt)) as [e|] eqn:He.
    + destruct (IH (attempt + 1)) as [Hall|(k & Hk & Hfail & Hok)].
      * left. intros n Hn. destruct (decide (n = attempt)) as [->|Hne].
        -- unfold fails. rewrite He. eauto.
        -- apply Hall. lia.
      * right. exists (S k). split; [lia|]. split.
        -- intros n Hn. destruct (decide (n = attempt)) as [->|Hne].
           ++ unfold fails. rewrite He. eauto.
           ++ apply Hfail. lia.
        -- by replace (attempt + Z.of_nat (S k)) with (attempt + 1 + Z.of_nat k) by lia.
    + right. exists 0%nat. split; [lia|]. split; [intros n Hn; lia|].
      by replace (attempt + Z.of_nat 0) with attempt by lia.
Qed.

Lemma downloadFile_fulfils_iff_aux url dest maxRetries w :
  (run (downloadFile E url dest maxRetries w)).1 = inr tt <->
  exists n, 1 <= n <= maxRetries /\ attempt_failure url (transport E url n) = None.
Proof.
  destruct (Z_le_gt_dec maxRetries 0) as [Hle|Hgt].
  { unfold downloadFile. replace (Z.to_nat maxRetries) with 0%nat by lia.
    simpl. split; [done|]. intros (n & Hn & _). lia. }
  destruct (attempts_cases url (Z.to_nat maxRetries) 1)
    as [Hall|(k & Hk & Hfail & Hok)].
  - destruct (loop_exhausts E (Z.to_nat maxRetries) url dest maxRetries 1 None w)
      as (last' & w' & Hrun & _); [lia|lia|intros; apply Hall; lia|].
    unfold downloadFile. rewrite Hrun. simpl. split; [done|].
    intros (n & Hn & Hok). destruct (Hall n ltac:(lia)) as [e He]. congruence.
  - destruct (loop_succeeds E k (Z.to_nat maxRetries) url dest maxRetries 1 None w)
      as (tr & Hrun & _); [lia|lia|lia|exact Hfail|exact Hok|].
    unfold downloadFile. rewrite Hrun. simpl. split; [|done].
    intros _. exists (1 + Z.of_nat k). split; [lia|done].
Qed.


(** X2.  Whatever the transport does, a call makes at most [maxRetries]
    requests (none when [maxRetries <= 0]), all of them for its own URL. *)
Theorem downloadFile_requests_bounded url dest maxRetries w :
  exists j : nat,
    (j <= Z.to_nat maxRetries)%nat /\
    requests (trace (run (downloadFile E url dest maxRetries w)).2)
    = requests (trace w) ++ replicate j url.
Proof. apply loop_requests. Qed.

(** X3.  Whatever the transport does, a call run on its own leaves every
    path other than its destination as it was. *)
Theorem downloadFile_touches_only_destination url dest maxRetries w p :
  p <> dest ->
  fs (run (downloadFile E url dest maxRetries w)).2 !! p = fs w !! p.
Proof. intros Hne. unfold downloadFile. by apply loop_frame. Qed.

Lemma try_block_result url dest attempt w :
  sat unconstrained
    (fun r => r = match attempt_failure url (transport E url attempt) with
                  | Some e => inl e
                  | None => inr tt
                  end)
    w (downloadFile_try E url dest attempt w).
Proof.
  unfold downloadFile_try, bind, emit, suspend, streamPipeline, bind, put_fs. simpl.
  split; [done|]. intros w1. unfold attempt_failure.
  destruct (transport E url attempt) as [e|ok st body]; simpl; [done|].
  destruct ok; simpl; [|done].
  destruct body as [[data [e|]]|]; simpl; [| |done];
    (split; [done|]; intros w2; done).
Qed.

Lemma iteration_result url dest maxRetries attempt w :
  sat unconstrained
    (fun r => r = inr (attempt_failure url (transport E url attempt)))
    w (downloadFile_iteration E url dest maxRetries attempt w).
Proof.
  unfold downloadFile_iteration, try_catch, bind.
  eapply sat_catch with
    (Q1 := fun r => r = match attempt_failure url (transport E url attempt) with
                        | Some e => inl e
                        | None => inr None
                        end); [typeclasses eauto| | |].
  - eapply sat_bind; [typeclasses eauto|apply try_block_result| |].
    + intros [] w1 Hr. simpl. split; [done|].
      destruct (attempt_failure url (transport E url attempt)); congruence.
    + intros e He.
      destruct (attempt_failure url (transport E url attempt)); congruence.
  - intros e w1 He.
    eapply sat_bind with (Q1 := fulfils); [typeclasses eauto| | |].
    + by apply fulfils_downloadFile_catch.
    + intros [] w2 _. simpl. split; [done|].
      destruct (attempt_failure url (transport E url attempt)); congruence.
    + intros e' [a Ha]. discriminate.
  - intros a Ha.
    destruct (attempt_failure url (transport E url attempt)); congruence.
Qed.

Lemma loop_result remaining url dest maxRetries attempt last w w0 :
  sat unconstrained
    (fun r => r = (run (downloadFile_loop E remaining url dest maxRetries attempt
                          last w0)).1)
    w (downloadFile_loop E remaining url dest maxRetries attempt last w).
Proof.
  revert attempt last w w0. induction remaining as [|r IH]; intros attempt last w w0.
  - simpl. done.
  - rewrite !loop_step, run_bind.
    eapply sat_bind; [typeclasses eauto|apply iteration_result| |].
    + intros caught w1 Hc. injection Hc as ->.
      destruct (attempt_failure url (transport E url attempt)) as [e|] eqn:He.
      * destruct (iteration_fails E url dest maxRetries attempt e w0 He)
          as (tr & pre & -> & _). apply IH.
      * destruct (iteration_succeeds E url dest maxRetries attempt w0 He) as [-> _].
        simpl. done.
    + intros e He. discriminate.
Qed.


End FetcherMore.

(** ** [extractFile] and [embeddingExternalBinaries] *)

Lemma mkdirs_keep ds m p n : m !! p = Some n -> foldl mkdir_one m ds !! p = Some n.
Proof.
  revert m. induction ds as [|d ds IH]; intros m Hp; [done|].
  simpl. apply IH. unfold mkdir_one. destruct (m !! d) eqn:Hd; [done|].
  rewrite lookup_insert_ne; [done|]. intros ->. congruence.
Qed.

Lemma post_ensure_dir_keeps d w :
  post (ensure_dir d) w
    (fun r w1 => r = inr tt /\ forall p n, fs w !! p = Some n -> fs w1 !! p = Some n).
Proof.
  unfold post, ensure_dir, bind, existsSync, mkdirSync_recursive, put_fs. simpl.
  case_bool_decide; simpl; [done|]. split; [done|]. intros p n. apply mkdirs_keep.
Qed.

Lemma write_entries_frame tmpDir es m p :
  ~ tmpDir `prefix_of` p -> write_entries tmpDir m es !! p = m !! p.
Proof.
  intros Hout. unfold write_entries. revert m.
  induction es as [|e es IH]; intros m; [done|].
  simpl. rewrite IH, lookup_insert_ne; [done|].
  intros <-. apply Hout. by apply prefix_app_r.
Qed.

Lemma write_entries_absent tmpDir es m rel :
  rel ∉ es.*1 -> write_entries tmpDir m es !! (tmpDir ++ rel) = m !! (tmpDir ++ rel).
Proof.
  unfold write_entries. revert m.
  induction es as [|e es IH]; intros m Hnot; [done|].
  simpl in *. apply not_elem_of_cons in Hnot as [Hne Hnot].
  rewrite IH by done. rewrite lookup_insert_ne; [done|].
  intros Heq. by apply app_inv_head in Heq.
Qed.

Lemma write_entries_lookup tmpDir es m rel n :
  NoDup es.*1 -> (rel, n) ∈ es ->
  write_entries tmpDir m es !! (tmpDir ++ rel) = Some n.
Proof.
  revert m. induction es as [|e es IH]; intros m Hnd Hin.
  - by apply elem_of_nil in Hin.
  - simpl in Hnd. apply NoDup_cons in Hnd as [Hfresh Hnd].
    apply elem_of_cons in Hin as [<-|Hin].
    + change (write_entries tmpDir m ((rel, n) :: es))
        with (write_entries tmpDir (<[tmpDir ++ rel := n]> m) es).
      rewrite write_entries_absent by done. apply lookup_insert_eq.
    + change (write_entries tmpDir m (e :: es))
        with (write_entries tmpDir (<[tmpDir ++ e.1 := e.2]> m) es).
      by apply IH.
Qed.

Section InstallerMore.
Context (E : env).

(** The workspace is never an ancestor of the install path. *)
Lemma tmpDir_not_above_target platform arch targetTriple extension :
  ~ tmpDir_of E platform arch `prefix_of` targetPath_of targetTriple extension.
Proof.
  unfold tmpDir_of, targetPath_of. intros [k Hk].
  destruct (dirname__ E) as [|a [|b l]]; simpl in Hk.
  - discriminate.
  - discriminate.
  - apply (f_equal length) in Hk. simpl in Hk. rewrite !length_app in Hk.
    simpl in Hk. lia.
Qed.

Lemma post_downloadFile_served url dest maxRetries w n :
  1 <= n <= maxRetries ->
  (forall m, 1 <= m < n -> fails E url m) ->
  attempt_failure url (transport E url n) = None ->
  post (downloadFile E url dest maxRetries) w
    (fun r w1 => r = inr tt /\
                 fs w1 = <[dest := File (attempt_payload (transport E url n))]> (fs w)).
Proof.
  intros Hn Hfail Hok. unfold post, downloadFile.
  destruct (loop_succeeds E (Z.to_nat (n - 1)) (Z.to_nat maxRetries) url dest
              maxRetries 1 None w) as (tr & Hrun & _); [lia|lia|lia| | |].
  - intros m Hm. apply Hfail. lia.
  - by replace (1 + Z.of_nat (Z.to_nat (n - 1))) with n by lia.
  - replace (1 + Z.of_nat (Z.to_nat (n - 1))) with n in Hrun by lia.
    by rewrite Hrun.
Qed.

Lemma post_extractFile_unpacks filePath fileExtension tmpDir w data u :
  fs w !! filePath = Some (File data) ->
  (if String.eqb fileExtension "zip" then unzip E data else untar E data) = u ->
  failed u = None ->
  post (extractFile E filePath fileExtension tmpDir) w
    (fun r w1 => r = inr tt /\ fs w1 = write_entries tmpDir (fs w) (entries u)).
Proof.
  intros Hfile Hu Hgood. unfold post, extractFile, bind, suspend, put_fs. simpl.
  rewrite Hfile, Hu, Hgood. done.
Qed.

Lemma post_extractFile_frame filePath fileExtension tmpDir w :
  post (extractFile E filePath fileExtension tmpDir) w
    (fun _ w1 => forall p, ~ tmpDir `prefix_of` p -> fs w1 !! p = fs w !! p).
Proof.
  unfold post. intros p Hp. unfold extractFile, bind, suspend, put_fs. simpl.
  destruct (fs w !! filePath) as [[data|]|]; simpl; try done.
  destruct (failed _); simpl; by apply write_entries_frame.
Qed.

Lemma post_renameSync_moves src dst w n :
  fs w !! src = Some n ->
  post (renameSync src dst) w
    (fun r w1 => r = inr tt /\ fs w1 = <[dst := n]> (delete src (fs w))).
Proof. intros Hsrc. unfold post, renameSync, put_fs. by rewrite Hsrc. Qed.

Lemma post_rmSync_filter d w :
  post (rmSync_recursive d) w
    (fun r w1 => r = inr tt /\
                 fs w1 = filter (λ kv : path * node, ¬ d `prefix_of` kv.1) (fs w)).
Proof. done. Qed.

(** X5.  A binary target is installed when its archive is served within
    three attempts and unpacks, without error and with distinct entry paths,
    to a tree that holds the executable where the naming convention expects
    it: the task fulfils, the install path holds that executable, and the
    workspace is gone with all it held. *)
Theorem embeddingExternalBinaries_installs platform arch extension targetTriple w n u exe :
  1 <= n <= 3 ->
  (forall m, 1 <= m < n -> fails E (downloadUrl_of E platform arch) m) ->
  attempt_failure (downloadUrl_of E platform arch)
    (transport E (downloadUrl_of E platform arch) n) = None ->
  unpacker E platform (attempt_payload (transport E (downloadUrl_of E platform arch) n)) = u ->
  failed u = None ->
  NoDup (entries u).*1 ->
  (executable_in_archive E platform arch extension, exe) ∈ entries u ->
  let r := run (embeddingExternalBinaries E platform arch extension targetTriple w) in
  r.1 = inr tt /\
  fs r.2 !! targetPath_of targetTriple extension = Some exe /\
  (forall p, tmpDir_of E platform arch `prefix_of` p -> fs r.2 !! p = None).
Proof.
  intros Hn Hfail Hok Hu Hgood Hnd Hexe r. subst r.
  change (post (embeddingExternalBinaries E platform arch extension targetTriple) w
            (fun r w' => r = inr tt /\
               fs w' !! targetPath_of targetTriple extension = Some exe /\
               forall p, tmpDir_of E platform arch `prefix_of` p -> fs w' !! p = None)).
  unfold embeddingExternalBinaries.
  set (tmpDir := tmpDir_of E platform arch).
  apply post_catch, post_bind.
  eapply post_mono; [apply post_ensure_dir|]. intros r w1 (-> & _).
  apply post_bind. eapply post_mono; [apply post_console|]. intros r w2 [-> _].
  apply post_bind.
  eapply post_mono; [by apply (post_downloadFile_served _ _ _ _ n)|].
  intros r w3 [-> Hfs3]. apply post_bind.
  eapply post_mono.
  { eapply post_extractFile_unpacks; [by rewrite Hfs3, lookup_insert_eq|exact Hu|exact Hgood]. }
  intros r w4 [-> Hfs4].
  apply post_bind. eapply post_mono; [apply post_ensure_dir_keeps|].
  intros r w5 (-> & Hkeep).
  assert (fs w5 !! (tmpDir ++ executable_in_archive E platform arch extension) = Some exe)
    as Hsrc.
  { apply Hkeep. rewrite Hfs4. by apply write_entries_lookup. }
  apply post_bind. eapply post_mono; [apply (post_renameSync_moves _ _ _ exe Hsrc)|].
  intros r w6 [-> Hfs6].
  apply post_bind. eapply post_mono; [apply post_rmSync_filter|].
  intros r w7 [-> Hfs7].
  unfold post. simpl. split; [done|]. rewrite Hfs7, Hfs6. split.
  - apply map_lookup_filter_Some. split; [apply lookup_insert_eq|].
    apply tmpDir_not_above_target.
  - intros p Hp. apply map_lookup_filter_None. right. intros x _ Hnot. by apply Hnot.
Qed.

(** X6.  A binary-installer task that fails, at whatever step, leaves the
    executable installed by an earlier run at its install path: unlike the
    sysproxy and database tasks it downloads into its workspace and touches
    the install path only in the final move. *)
Theorem embeddingExternalBinaries_failure_keeps_installed
    platform arch extension targetTriple w old e :
  fs w !! targetPath_of targetTriple extension = Some old ->
  let r := run (embeddingExternalBinaries E platform arch extension targetTriple w) in
  r.1 = inl e ->
  fs r.2 !! targetPath_of targetTriple extension = Some old.
Proof.
  intros Hold r. subst r.
  assert (post (embeddingExternalBinaries E platform arch extension targetTriple) w
            (fun r w' => forall e', r = inl e' ->
               fs w' !! targetPath_of targetTriple extension = Some old)) as Hpost;
    [|intros He; exact (Hpost e He)].
  unfold embeddingExternalBinaries.
  set (tmpDir := tmpDir_of E platform arch).
  set (target := targetPath_of targetTriple extension) in *.
  assert (~ tmpDir `prefix_of` target) as Hout by apply tmpDir_not_above_target.
  assert (forall err w0,
            fs w0 !! target = Some old ->
            post (console Err ("Processing failed: " +:+ message err) ;; @throw unit err) w0
              (fun r w' => forall e', r = inl e' -> fs w' !! target = Some old))
    as Hhandler.
  { intros err w0 Hw0. unfold post. simpl. done. }
  apply post_catch, post_bind.
  eapply post_mono; [apply post_ensure_dir_keeps|]. intros r w1 (-> & Hkeep).
  apply Hkeep in Hold. clear Hkeep.
  apply post_bind. eapply post_mono; [apply post_console|]. intros r w2 [-> Hfs2].
  rewrite <- Hfs2 in Hold. clear Hfs2 w1.
  apply post_bind. eapply post_mono; [apply post_downloadFile|]. intros r w3 Hframe.
  rewrite <- (Hframe target) in Hold.
  2: { intros ->. apply Hout. by apply prefix_app_r. }
  clear Hframe w2. destruct r as [err|[]]; [by apply Hhandler|].
  apply post_bind. eapply post_mono; [apply post_extractFile_frame|].
  intros r w4 Hframe. rewrite <- (Hframe target Hout) in Hold. clear Hframe w3.
  destruct r as [err|[]]; [by apply Hhandler|].
  apply post_bind. eapply post_mono; [apply post_ensure_dir_keeps|].
  intros r w5 (-> & Hkeep). apply Hkeep in Hold. clear Hkeep.
  apply post_bind. eapply post_mono; [apply post_renameSync|]. intros r w6 Hren.
  destruct r as [err|[]]; [subst w6; by apply Hhandler|].
  apply post_bind. eapply post_mono; [apply post_rmSync_filter|].
  intros r w7 [-> _]. unfold post. simpl. intros e' He'. discriminate.
Qed.

(** X7.  The archive library is chosen by the platform alone: a windows
    target is unpacked with [unzipper] and never consults [tar]; every other
    target is unpacked with [tar] and never consults [unzipper]. *)
Theorem archive_library_by_platform platform arch extension targetTriple f :
  (platform = windows ->
   embeddingExternalBinaries (with_untar E f) platform arch extension targetTriple
   = embeddingExternalBinaries E platform arch extension targetTriple) /\
  (platform <> windows ->
   embeddingExternalBinaries (with_unzip E f) platform arch extension targetTriple
   = embeddingExternalBinaries E platform arch extension targetTriple).
Proof.
  split.
  - intros ->. reflexivity.
  - intros Hne. destruct platform; [reflexivity|reflexivity|done].
Qed.

End InstallerMore.

(** ** The launch of the tasks *)

Section Launch.
Context (E : env).

Lemma ensure_dir_settles d w :
  exists m, ensure_dir d w = Settled (inr tt) (World m (trace w)).
Proof.
  unfold ensure_dir, bind, existsSync, mkdirSync_recursive, put_fs. simpl.
  destruct (bool_decide _); simpl; [|by eexists].
  exists (fs w). by destruct w.
Qed.

Lemma embeddingExternalBinaries_launches platform arch extension targetTriple :
  launches (downloadUrl_of E platform arch)
    (embeddingExternalBinaries E platform arch extension targetTriple).
Proof.
  intros w. unfold embeddingExternalBinaries, try_catch, bind.
  destruct (ensure_dir_settles (tmpDir_of E platform arch) w) as (m & ->).
  simpl. eexists _, _, _. split; [reflexivity|]. simpl.
  by rewrite !requests_app, app_nil_r.
Qed.

Lemma sysproxy_task_launches targetTriple extension :
  launches SYSPROXY_URL (sysproxy_task E targetTriple extension).
Proof.
  intros w. unfold sysproxy_task, bind. simpl.
  match goal with |- context [ensure_dir ?d ?w0] =>
    destruct (ensure_dir_settles d w0) as (m & Hm) end.
  simpl in Hm. rewrite Hm. simpl.
  eexists _, _, _. split; [reflexivity|]. simpl.
  by rewrite !requests_app, app_nil_r.
Qed.

Lemma database_task_launches dbFile : launches dbFile.2 (database_task E dbFile).
Proof.
  intros w. unfold database_task, bind. simpl.
  eexists _, _, _. split; [reflexivity|]. simpl.
  by rewrite !requests_app, app_nil_r.
Qed.

Lemma start_each_launches urls ms w :
  Forall2 launches urls ms ->
  exists ps w1,
    start_each ms w = Settled (inr ps) w1 /\
    requests (trace w1) = requests (trace w) ++ urls /\
    unrejected ps.
Proof.
  intros Hall. revert w. induction Hall as [|url m urls ms Hm Hms IH]; intros w.
  - exists [], w. simpl. rewrite app_nil_r. repeat split. constructor.
  - destruct (Hm w) as (a & w1 & k & Hw & Hreq).
    destruct (IH w1) as (ps & w2 & Hps & Hreq2 & Hun).
    exists (Parked a k :: ps), w2. simpl. unfold bind, start. rewrite Hw. simpl.
    rewrite Hps. simpl. split; [done|]. split.
    + by rewrite Hreq2, Hreq, <- app_assoc.
    + by constructor.
Qed.

Lemma unrejected_first ps : unrejected ps -> first_rejected ps = None.
Proof.
  intros Hun. unfold first_rejected.
  destruct (list_find _ ps) as [[i p]|] eqn:Hfind; [|done].
  apply list_find_Some in Hfind as (Hi & [e He] & _). simpl.
  eapply Forall_lookup_1 in Hun; [|exact Hi]. congruence.
Qed.

Lemma await_each_unrejected ps w :
  unrejected ps ->
  exists p, park (await_each ps w) = (p, w) /\ rejection p = None.
Proof.
  intros Hun. induction Hun as [|p ps Hp Hps IH].
  - by exists Fulfilled.
  - simpl. unfold bind. destruct p as [|e|a k]; simpl in *; [exact IH|done|].
    by eexists.
Qed.

(** An aggregate none of whose members has rejected gives control back
    without a step of any member. *)
Lemma Promise_all_unrejected sched ps w :
  unrejected ps ->
  exists p, park (Promise_all sched ps w) = (p, w) /\ rejection p = None.
Proof.
  intros Hun. destruct sched as [|i sched]; simpl;
    rewrite (unrejected_first ps Hun); destruct (all_fulfilled ps).
  - by exists Fulfilled.
  - by apply await_each_unrejected.
  - by exists Fulfilled.
  - by eexists.
Qed.

Lemma matrix_launches matrix :
  Forall2 launches (matrix_urls E matrix) (matrix_tasks E matrix).
Proof.
  unfold matrix_urls, matrix_tasks.
  induction matrix as [|[platform archs] matrix IH]; [constructor|].
  simpl. apply Forall2_app; [|exact IH]. clear IH.
  induction archs as [|[arch targetTriple] archs IH]; [constructor|].
  simpl. constructor; [apply embeddingExternalBinaries_launches|].
  case_decide; [|exact IH].
  constructor; [apply sysproxy_task_launches|exact IH].
Qed.

Lemma databases_launch files :
  Forall2 launches files.*2 (database_task E <$> files).
Proof.
  induction files as [|dbFile files IH]; [constructor|].
  simpl. constructor; [apply database_task_launches|exact IH].
Qed.

Lemma binaries_start matrix sched w :
  exists p w1,
    start (downloadEmbeddingExternalBinaries_over E matrix sched) w = Settled (inr p) w1 /\
    requests (trace w1) = requests (trace w) ++ matrix_urls E matrix /\
    rejection p = None.
Proof.
  destruct (start_each_launches _ _ w (matrix_launches matrix))
    as (ps & w1 & Hps & Hreq & Hun).
  destruct (Promise_all_unrejected sched ps w1 Hun) as (p & Hp & Hrej).
  exists p, w1. unfold start, downloadEmbeddingExternalBinaries_over, bind.
  rewrite Hps. simpl. by rewrite Hp.
Qed.

Lemma databases_start files sched w :
  exists p w1,
    start (downloadDatabaseFiles_over E files sched) w = Settled (inr p) w1 /\
    requests (trace w1) = requests (trace w) ++ files.*2 /\
    rejection p = None.
Proof.
  destruct (ensure_dir_settles resourcesDir w) as (m & Hw0).
  destruct (start_each_launches _ _ (World m (trace w)) (databases_launch files))
    as (ps & w1 & Hps & Hreq & Hun).
  destruct (Promise_all_unrejected sched ps w1 Hun) as (p & Hp & Hrej).
  exists p, w1. unfold start, downloadDatabaseFiles_over, bind.
  rewrite Hw0. simpl. rewrite Hps. simpl. by rewrite Hp.
Qed.

(** X8.  When the version is not on the skip-list, every task is launched
    before the module body first gives control back: by then one request has
    been issued per task, in the order of the tables (for each target its
    archive, for windows/amd64 the sysproxy helper right after it, then the
    database files), and no response has been handled yet. *)
Theorem all_tasks_launched_up_front matrix files s w :
  SING_BOX_VERSION E ∉ SkipVersionList ->
  requests (trace (parked_world (script_over E matrix files s w)))
  = requests (trace w) ++ matrix_urls E matrix ++ files.*2.
Proof.
  intros Hrun. rewrite script_over_unfold. simpl.
  rewrite (bool_decide_eq_false_2 _ Hrun).
  set (w0 := World (fs w) (trace w ++ [EvIncludes (SING_BOX_VERSION E) false])).
  assert (requests (trace w0) = requests (trace w)) as Hw0.
  { unfold w0. simpl. by rewrite requests_app, app_nil_r. }
  unfold downloads, bind. simpl.
  match goal with |- context [start _ ?w'] =>
    destruct (binaries_start matrix (binaries s) w') as (p1 & w1 & -> & Hreq1 & Hrej1)
  end.
  simpl in Hreq1. rewrite requests_app, app_nil_r in Hreq1. simpl.
  destruct (databases_start files (databases s) w1) as (p2 & w2 & -> & Hreq2 & Hrej2).
  simpl. unfold try_catch.
  assert (unrejected [p1; p2]) as Hun by (by repeat constructor).
  destruct (Promise_all_unrejected (top s) [p1; p2] w2 Hun) as (p & Hp & Hrej).
  destruct (Promise_all (top s) [p1; p2] w2) as [[e|[]] w3|a w3 k]; simpl in *.
  - injection Hp as <- <-. discriminate.
  - injection Hp as <- <-. rewrite !requests_app. simpl. rewrite !app_nil_r.
    rewrite Hreq2, Hreq1, Hw0. by rewrite <- app_assoc.
  - injection Hp as <- <-. rewrite Hreq2, Hreq1, Hw0. by rewrite <- app_assoc.
Qed.

End Launch.

(** ** What the script leaves alone *)

Section Confined.
Context (E : env).

#[local] Instance keeps_outside_preorder : PreOrder (keeps_outside E).
Proof.
  split.
  - intros w p n _ Hp. exact Hp.
  - intros w1 w2 w3 H12 H23 p n Hout Hp. apply H23, H12; done.
Qed.

#[local] Abbreviation R := (keeps_outside E).

Lemma keeps_emit w ev : R w (World (fs w) (trace w ++ [ev])).
Proof. intros p n _ Hp. exact Hp. Qed.

Lemma inside_below d p : inside E d -> d `prefix_of` p -> inside E p.
Proof. intros [Hd|Hd] Hp; [left|right]; by etrans. Qed.

Lemma inside_tmpDir platform arch : inside E (tmpDir_of E platform arch).
Proof.
  left. unfold tmpDir_of. eexists [_]. by rewrite <- app_assoc.
Qed.

Lemma inside_src_tauri p : inside E ("src-tauri" :: p).
Proof. right. by exists p. Qed.

Lemma kept_ret {A} (a : A) w : sat R any w (ret a w).
Proof. simpl. done. Qed.

Lemma kept_throw {A} e w : sat R (@any A) w (throw e w).
Proof. simpl. done. Qed.

Lemma kept_console lvl text w : sat R any w (console lvl text w).
Proof. simpl. split; [apply keeps_emit|done]. Qed.

Lemma kept_suspend a w : sat R any w (suspend a w).
Proof. simpl. split; [done|]. intros w'. done. Qed.

Lemma kept_ensure_dir d w : sat R any w (ensure_dir d w).
Proof.
  unfold ensure_dir, bind, existsSync, mkdirSync_recursive, put_fs. simpl.
  destruct (bool_decide _); simpl; (split; [|done]); [done|].
  intros p n _ Hp. simpl. by apply mkdirs_keep.
Qed.

Lemma kept_downloadFile_catch url dest maxRetries attempt err w :
  inside E dest ->
  sat R fulfils w (downloadFile_catch url dest maxRetries attempt err w).
Proof.
  intros Hin.
  assert (forall w0 tr, R w0 (World (delete dest (fs w0)) tr)) as Hdel.
  { intros w0 tr p n Hout Hp. simpl. rewrite lookup_delete_ne; [done|]. by intros ->. }
  unfold downloadFile_catch, bind, existsSync, unlinkSync, console, emit, put_fs, suspend.
  simpl. destruct (bool_decide _); simpl; destruct (attempt <? maxRetries); simpl.
  - split; [apply Hdel|]. intros w'. split; [done|by exists tt].
  - split; [apply Hdel|by exists tt].
  - split; [apply keeps_emit|]. intros w'. split; [done|by exists tt].
  - split; [done|by exists tt].
Qed.

Lemma kept_downloadFile_try url dest attempt w :
  inside E dest -> sat R any w (downloadFile_try E url dest attempt w).
Proof.
  intros Hin.
  assert (forall w0 data, R w0 (World (<[dest := File data]> (fs w0)) (trace w0))) as Hput.
  { intros w0 data p n Hout Hp. simpl. rewrite lookup_insert_ne; [done|]. by intros ->. }
  unfold downloadFile_try, bind, emit, suspend, streamPipeline, bind, put_fs. simpl.
  split; [apply keeps_emit|]. intros w1.
  destruct (transport E url attempt) as [e|ok st body]; simpl; [done|].
  destruct ok; simpl; [|done].
  destruct body as [[data [e|]]|]; simpl; [| |done];
    (split; [done|]; intros w2; split; [apply Hput|done]).
Qed.

Lemma kept_downloadFile url dest maxRetries w :
  inside E dest -> sat R any w (downloadFile E url dest maxRetries w).
Proof.
  intros Hin. unfold downloadFile. generalize 1 (@None Error) w.
  induction (Z.to_nat maxRetries) as [|r IH]; intros attempt last w'; [apply kept_throw|].
  rewrite loop_step. eapply sat_bind with (Q1 := any); [typeclasses eauto| | |done].
  - unfold downloadFile_iteration. apply tame_catch; [typeclasses eauto| |].
    + apply tame_bind; [typeclasses eauto| |intros; apply kept_ret].
      intros w1. by apply kept_downloadFile_try.
    + intros e w1. apply tame_bind; [typeclasses eauto| |intros; apply kept_ret].
      intros w2. eapply sat_mono; [apply fulfils_any|by apply kept_downloadFile_catch].
  - intros [e|] w1 _; [apply IH|apply kept_ret].
Qed.

Lemma kept_extractFile filePath fileExtension tmpDir w :
  inside E tmpDir -> sat R any w (extractFile E filePath fileExtension tmpDir w).
Proof.
  intros Hin. unfold extractFile, bind, suspend, put_fs. simpl.
  split; [done|]. intros w1.
  destruct (fs w1 !! filePath) as [[data|]|]; simpl; [|done..].
  assert (forall u, R w1 (World (write_entries tmpDir (fs w1) (entries u)) (trace w1)))
    as Hput.
  { intros u p n Hout Hp. simpl. rewrite write_entries_frame; [done|].
    intros Hpre. apply Hout. by eapply inside_below. }
  destruct (failed _); simpl; (split; [apply Hput|done]).
Qed.

Lemma kept_renameSync src dst w :
  inside E src -> inside E dst -> sat R any w (renameSync src dst w).
Proof.
  intros Hsrc Hdst. unfold renameSync, put_fs, throw.
  destruct (fs w !! src) as [x|]; simpl; (split; [|done]); [|done].
  intros p n Hout Hp. simpl. rewrite lookup_insert_ne by (by intros ->).
  rewrite lookup_delete_ne by (by intros ->). done.
Qed.

Lemma kept_rmSync d w : inside E d -> sat R any w (rmSync_recursive d w).
Proof.
  intros Hin. unfold rmSync_recursive, put_fs. simpl. split; [|done].
  intros p n Hout Hp. simpl. apply map_lookup_filter_Some. split; [done|].
  simpl. intros Hpre. apply Hout. by eapply inside_below.
Qed.

Ltac kept_by side :=
  repeat first
    [ progress intros
    | apply kept_ret | apply kept_throw | apply kept_console | apply kept_suspend
    | apply kept_ensure_dir
    | (apply kept_downloadFile; side)
    | (apply kept_extractFile; side)
    | (apply kept_renameSync; side)
    | (apply kept_rmSync; side)
    | (apply tame_bind; [typeclasses eauto| |])
    | (apply tame_catch; [typeclasses eauto| |]) ].

Ltac kept := kept_by ltac:(apply inside_src_tauri).

Lemma kept_embeddingExternalBinaries platform arch extension targetTriple w :
  sat R any w (embeddingExternalBinaries E platform arch extension targetTriple w).
Proof.
  pose proof (inside_tmpDir platform arch) as Htmp.
  assert (forall q, inside E (tmpDir_of E platform arch ++ q)) as Hsub.
  { intros q. eapply inside_below; [exact Htmp|]. by apply prefix_app_r. }
  unfold embeddingExternalBinaries.
  kept_by ltac:(first [apply Hsub | exact Htmp | apply inside_src_tauri]).
Qed.

Lemma kept_sysproxy_task targetTriple extension w :
  sat R any w (sysproxy_task E targetTriple extension w).
Proof. unfold sysproxy_task. kept. Qed.

Lemma kept_database_task dbFile w : sat R any w (database_task E dbFile w).
Proof. unfold database_task, resourcesDir. kept. Qed.

Lemma kept_matrix_tasks matrix :
  Forall (fun m : async unit => forall w', sat R any w' (m w')) (matrix_tasks E matrix).
Proof.
  apply Forall_forall. intros m Hm. unfold matrix_tasks in Hm.
  apply list_elem_of_join in Hm as (l & Hm & Hl).
  apply list_elem_of_fmap in Hl as ([platform archs] & -> & _).
  apply list_elem_of_join in Hm as (l & Hm & Hl).
  apply list_elem_of_fmap in Hl as ([arch targetTriple] & -> & _).
  unfold target_tasks in Hm. simpl in Hm.
  apply elem_of_cons in Hm as [->|Hm].
  - intros w'. apply kept_embeddingExternalBinaries.
  - case_decide; [|by apply elem_of_nil in Hm].
    apply list_elem_of_singleton in Hm as ->. intros w'. apply kept_sysproxy_task.
Qed.

Lemma kept_binaries matrix sched w :
  sat R any w (downloadEmbeddingExternalBinaries_over E matrix sched w).
Proof.
  unfold downloadEmbeddingExternalBinaries_over, bind.
  eapply sat_bind;
    [typeclasses eauto|apply start_each_tame; [typeclasses eauto|apply kept_matrix_tasks]
    | |done].
  intros ps w1 (ps' & [= <-] & Hps). apply Promise_all_tame; [typeclasses eauto|done].
Qed.

Lemma kept_databases files sched w :
  sat R any w (downloadDatabaseFiles_over E files sched w).
Proof.
  unfold downloadDatabaseFiles_over.
  apply tame_bind; [typeclasses eauto|intros; apply kept_ensure_dir|].
  intros _ w1. unfold bind.
  eapply sat_bind; [typeclasses eauto|apply start_each_tame; [typeclasses eauto|]| |done].
  - apply Forall_forall. intros m Hm.
    apply list_elem_of_fmap in Hm as (dbFile & -> & _).
    intros w'. apply kept_database_task.
  - intros ps w2 (ps' & [= <-] & Hps). apply Promise_all_tame; [typeclasses eauto|done].
Qed.

Lemma kept_script matrix files s w : sat R any w (script_over E matrix files s w).
Proof.
  unfold script_over.
  apply tame_bind; [typeclasses eauto| |].
  { intros w0. simpl. split; [apply keeps_emit|done]. }
  intros _ w0. destruct (bool_decide _); [kept|].
  unfold downloads. apply tame_bind; [typeclasses eauto|intros; apply kept_console|].
  intros _ w1. unfold bind.
  eapply sat_bind;
    [typeclasses eauto|apply (start_sat R any); intros; apply kept_binaries| |done].
  intros p1 w2 (p & [= <-] & Hp1).
  eapply sat_bind;
    [typeclasses eauto|apply (start_sat R any); intros; apply kept_databases| |done].
  intros p2 w3 (p & [= <-] & Hp2).
  apply tame_catch; [typeclasses eauto| |kept].
  apply tame_bind; [typeclasses eauto| |kept].
  intros w4. apply Promise_all_tame; [typeclasses eauto|]. by repeat constructor.
Qed.

(** X9.  Under every schedule, a run of the script leaves every entry of
    the disk that lies outside [tmp] beside the script and outside
    [src-tauri] exactly as it was (the archive libraries being taken to write
    below the directory they are given). *)
Theorem script_confined matrix files s w p n :
  ~ inside E p ->
  fs w !! p = Some n ->
  fs (execute (script_over E matrix files s) w).2 !! p = Some n.
Proof.
  intros Hout Hp. rewrite execute_world.
  pose proof (kept_script matrix files s w) as Hsat.
  apply sat_run in Hsat as [Hkeep _]; [|typeclasses eauto].
  by apply Hkeep.
Qed.

End Confined.

(** ** [Promise.all] and [downloadDatabaseFiles] when every member fulfils *)

Section Aggregate.
Context (R : world -> world -> Prop) `{!PreOrder R}.

Lemma resume_nth_all Q i ps w :
  Forall (promise_sat R Q) ps ->
  R w (resume_nth i ps w).2 /\ Forall (promise_sat R Q) (resume_nth i ps w).1.
Proof.
  intros Hall. unfold resume_nth.
  destruct (ps !! i) as [p|] eqn:Hp; [|done].
  destruct (resume_sat R Q p w) as [HR Hp'].
  { eapply Forall_lookup_1; eauto. }
  destruct (resume p w) as [p' w']. simpl in *.
  split; [done|]. by apply Forall_insert.
Qed.

Lemma start_each_all Q ms w :
  Forall (fun m : async unit => forall w', sat R Q w' (m w')) ms ->
  sat R (fun r => exists ps, r = inr ps /\ Forall (promise_sat R Q) ps) w
    (start_each ms w).
Proof.
  intros Hall. revert w. induction Hall as [|m ms Hm Hms IH]; intros w.
  - simpl. split; [done|]. eauto.
  - simpl. unfold bind.
    eapply sat_bind; [done|apply (start_sat R Q), Hm| |].
    + intros p w1 (p' & [= <-] & Hp).
      eapply sat_bind; [done|apply IH| |].
      * intros ps w2 (ps' & [= <-] & Hps). simpl. split; [done|]. eauto.
      * intros e (ps' & Hps & _). discriminate.
    + intros e (p' & Hp & _). discriminate.
Qed.

Lemma fulfilling_unrejected ps : Forall (promise_sat R fulfils) ps -> unrejected ps.
Proof.
  intros Hall. eapply Forall_impl; [exact Hall|].
  intros [|e|a k]; simpl; [done| |done].
  intros [a Ha]. discriminate.
Qed.

Lemma await_each_fulfils ps w :
  Forall (promise_sat R fulfils) ps -> sat R fulfils w (await_each ps w).
Proof.
  intros Hall. revert w. induction Hall as [|p ps Hp Hps IH]; intros w.
  - simpl. split; [done|]. by exists tt.
  - simpl. apply fulfils_bind; [done| |done].
    intros w1. by apply await_promise_sat.
Qed.

(** An aggregate all of whose members are bound to fulfil is bound to
    fulfil, whatever the schedule. *)
Lemma Promise_all_fulfils sched ps w :
  Forall (promise_sat R fulfils) ps -> sat R fulfils w (Promise_all sched ps w).
Proof.
  revert ps w. induction sched as [|i sched IH]; intros ps w Hall; simpl;
    rewrite (unrejected_first ps (fulfilling_unrejected ps Hall));
    (destruct (all_fulfilled ps); [simpl; split; [done|by exists tt]|]).
  - by apply await_each_fulfils.
  - simpl. split; [done|]. intros w'.
    destruct (resume_nth_all fulfils i ps w' Hall) as [HR Hall'].
    destruct (resume_nth i ps w') as [ps' w'']. simpl in *.
    eapply sat_start; [done|exact HR|]. by apply IH.
Qed.

End Aggregate.

Section Databases.
Context (E : env).

Lemma downloadFile_served_fulfils url dest w :
  (exists n, 1 <= n <= 3 /\ attempt_failure url (transport E url n) = None) ->
  sat unconstrained fulfils w (downloadFile E url dest 3 w).
Proof.
  intros Hserved.
  eapply sat_mono; [|apply (loop_result E (Z.to_nat 3) url dest 3 1 None w w)].
  intros r ->. fold (downloadFile E url dest 3 w).
  destruct (downloadFile_fulfils_iff_aux E url dest 3 w) as [_ Hback].
  exists tt. by apply Hback.
Qed.

Lemma database_task_fulfils dbFile w :
  (exists n, 1 <= n <= 3 /\ attempt_failure dbFile.2 (transport E dbFile.2 n) = None) ->
  sat unconstrained fulfils w (database_task E dbFile w).
Proof.
  intros Hserved. unfold database_task.
  apply fulfils_bind; [typeclasses eauto|intros; by apply fulfils_console|].
  intros _ w1.
  apply fulfils_bind; [typeclasses eauto|intros; by apply downloadFile_served_fulfils|].
  intros _ w2. by apply fulfils_console.
Qed.

(** X10.  Under every schedule, and whatever else happens to the disk,
    [downloadDatabaseFiles] fulfils when every file of its table is served
    within three attempts, and rejects when some file fails all three. *)
Theorem downloadDatabaseFiles_outcome files sched w :
  ((forall dbFile, dbFile ∈ files ->
      exists n, 1 <= n <= 3 /\ attempt_failure dbFile.2 (transport E dbFile.2 n) = None) ->
   sat unconstrained fulfils w (downloadDatabaseFiles_over E files sched w)) /\
  ((exists dbFile, dbFile ∈ files /\ forall n, 1 <= n <= 3 -> fails E dbFile.2 n) ->
   sat unconstrained rejects w (downloadDatabaseFiles_over E files sched w)).
Proof.
  split.
  - intros Hserved. unfold downloadDatabaseFiles_over.
    apply fulfils_bind; [typeclasses eauto|intros; by apply fulfils_ensure_dir|].
    intros _ w1. unfold bind.
    eapply sat_bind;
      [typeclasses eauto|apply (start_each_all unconstrained fulfils)| |].
    + apply Forall_forall. intros m Hm.
      apply list_elem_of_fmap in Hm as (dbFile & -> & Hin).
      intros w'. apply database_task_fulfils. by apply Hserved.
    + intros ps w2 (ps' & [= <-] & Hps). by apply Promise_all_fulfils.
    + intros e (ps' & Hps & _). discriminate.
  - intros (dbFile & Hin & Hall).
    eapply rejects_databases; eauto; try typeclasses eauto; done.
Qed.

End Databases.

(** ** [getCronetLatestVersion] and [downloadCronetLibraries] *)

Lemma delays_app {W} (l1 l2 : list (await_kind * W)) :
  delays (l1 ++ l2) = delays l1 ++ delays l2.
Proof. apply omap_app. Qed.

Section CronetFacts.
Context (E : env) (tag_name_of : content -> Error + option string).

Abbreviation answer n := (index_answer tag_name_of (transport E CRONET_REPO_API n)).

(** One iteration: its value is the answer of the index, the disk is as it
    was, one request was made, and a delay follows when the attempt failed
    and was not the last. *)
Lemma resolver_iteration maxRetries attempt w :
  exists tr,
    run (getCronetLatestVersion_iteration E tag_name_of maxRetries attempt w)
      = (inr (answer attempt), World (fs w) tr) /\
    requests tr = requests (trace w) ++ [CRONET_REPO_API] /\
    delays (awaits (getCronetLatestVersion_iteration E tag_name_of maxRetries attempt w))
      = match answer attempt with
        | inl _ => if attempt <? maxRetries then [attempt * 1000] else []
        | inr _ => []
        end.
Proof.
  unfold getCronetLatestVersion_iteration, try_catch, bind, getCronetLatestVersion_try,
    bind, emit, suspend, response_tag_name, bind, suspend, getCronetLatestVersion_catch,
    bind, console, emit, suspend, index_answer.
  simpl.
  destruct (transport E CRONET_REPO_API attempt) as [e|ok st body]; simpl.
  - destruct (attempt <? maxRetries); simpl; eexists; (split; [reflexivity|]);
      rewrite ?requests_app; simpl; by rewrite ?app_nil_r.
  - destruct ok; simpl.
    + destruct body as [[data [e|]]|]; simpl;
        [|destruct (tag_name_of data) as [e|tag]..|destruct (tag_name_of "") as [e|tag]];
        simpl; destruct (attempt <? maxRetries); simpl; eexists;
        (split; [reflexivity|]); rewrite ?requests_app; simpl; by rewrite ?app_nil_r.
    + destruct (attempt <? maxRetries); simpl; eexists; (split; [reflexivity|]);
        rewrite ?requests_app; simpl; by rewrite ?app_nil_r.
Qed.

Lemma resolver_loop_step remaining maxRetries attempt last w :
  getCronetLatestVersion_loop E tag_name_of (S remaining) maxRetries attempt last w
  = bind_co (getCronetLatestVersion_iteration E tag_name_of maxRetries attempt w)
      (fun caught =>
         match caught with
         | inr tag => ret tag
         | inl error =>
             getCronetLatestVersion_loop E tag_name_of remaining maxRetries (attempt + 1)
               (Some error)
         end).
Proof. reflexivity. Qed.

(** The loop when [k] more attempts fail and the next one is answered. *)
Lemma resolver_loop_resolves (k : nat) remaining maxRetries attempt last w tag :
  1 <= attempt ->
  attempt + Z.of_nat remaining = maxRetries + 1 ->
  (k < remaining)%nat ->
  (forall n, attempt <= n < attempt + Z.of_nat k -> exists e, answer n = inl e) ->
  answer (attempt + Z.of_nat k) = inr tag ->
  exists tr,
    run (getCronetLatestVersion_loop E tag_name_of remaining maxRetries attempt last w)
      = (inr tag, World (fs w) tr) /\
    requests tr = requests (trace w) ++ replicate (S k) CRONET_REPO_API /\
    delays (awaits (getCronetLatestVersion_loop E tag_name_of remaining maxRetries
                      attempt last w))
      = map (fun n => Z.of_nat n * 1000) (seq (Z.to_nat attempt) k).
Proof.
  revert remaining attempt last w.
  induction k as [|k IH]; intros remaining attempt last w Ha Hlen Hk Hfail Hok;
    (destruct remaining as [|r]; [lia|]);
    destruct (resolver_iteration maxRetries attempt w) as (tr & Hrun & Hreq & Hdel);
    rewrite resolver_loop_step, run_bind, awaits_bind, Hrun, delays_app, Hdel.
  - replace (attempt + Z.of_nat 0) with attempt in Hok by lia. rewrite Hok. simpl.
    eauto.
  - destruct (Hfail attempt ltac:(lia)) as [e He]. rewrite He.
    replace (attempt + Z.of_nat (S k)) with (attempt + 1 + Z.of_nat k) in Hok by lia.
    destruct (IH r (attempt + 1) (Some e) (World (fs w) tr) ltac:(lia) ltac:(lia)
                ltac:(lia)) as (tr' & Hrun' & Hreq' & Hdel'); [|exact Hok|].
    { intros n Hn. apply Hfail. lia. }
    rewrite Hrun', Hdel'. simpl. exists tr'. split; [done|]. split.
    + rewrite Hreq'. simpl. rewrite Hreq, <- app_assoc. done.
    + replace (attempt <? maxRetries) with true by lia. simpl.
      rewrite Z2Nat.id by lia.
      by replace (Z.to_nat (attempt + 1)) with (S (Z.to_nat attempt)) by lia.
Qed.

(** The loop when every remaining attempt fails. *)
Lemma resolver_loop_exhausts remaining maxRetries attempt last w :
  1 <= attempt ->
  attempt + Z.of_nat remaining = maxRetries + 1 ->
  (forall n, attempt <= n <= maxRetries -> exists e, answer n = inl e) ->
  exists last' tr,
    run (getCronetLatestVersion_loop E tag_name_of remaining maxRetries attempt last w)
      = (inl (mkError ("Failed to fetch cronet-go version after "
                       +:+ string_of_Z maxRetries +:+ " attempts. Last error: "
                       +:+ last_message last')), World (fs w) tr) /\
    (remaining = 0%nat -> last' = last) /\
    (remaining <> 0%nat -> exists e, answer maxRetries = inl e /\ last' = Some e) /\
    requests tr = requests (trace w) ++ replicate remaining CRONET_REPO_API /\
    delays (awaits (getCronetLatestVersion_loop E tag_name_of remaining maxRetries
                      attempt last w))
      = map (fun n => Z.of_nat n * 1000) (seq (Z.to_nat attempt) (remaining - 1)).
Proof.
  revert attempt last w.
  induction remaining as [|r IH]; intros attempt last w Ha Hlen Hall.
  - exists last, (trace w). simpl. rewrite app_nil_r. destruct w. done.
  - destruct (resolver_iteration maxRetries attempt w) as (tr & Hrun & Hreq & Hdel).
    destruct (Hall attempt ltac:(lia)) as [e He].
    destruct (IH (attempt + 1) (Some e) (World (fs w) tr) ltac:(lia) ltac:(lia))
      as (last' & tr' & Hrun' & Hzero & Hpos & Hreq' & Hdel').
    { intros n Hn. apply Hall. lia. }
    rewrite resolver_loop_step, run_bind, awaits_bind, Hrun, delays_app, Hdel, He.
    rewrite Hrun', Hdel'. simpl. exists last', tr'.
    split; [done|]. split; [done|]. split; [|split].
    + intros _. destruct r as [|r'].
      * rewrite (Hzero eq_refl). exists e. split; [|done].
        by replace maxRetries with attempt by lia.
      * by apply Hpos.
    + rewrite Hreq'. simpl. rewrite Hreq, <- app_assoc. done.
    + destruct r as [|r']; simpl.
      * by replace (attempt <? maxRetries) with false by lia.
      * replace (attempt <? maxRetries) with true by lia. simpl.
        rewrite Nat.sub_0_r, Z2Nat.id by lia.
        by replace (Z.to_nat (attempt + 1)) with (S (Z.to_nat attempt)) by lia.
Qed.

(** X11.  [getCronetLatestVersion] yields what the first answered attempt
    among three yields, after one request per attempt made and a delay of
    [n * 1000] ms after each failed attempt [n]; it never touches the disk.
    An answer without [tag_name] is a success: the call fulfils with
    [undefined]. *)
Theorem getCronetLatestVersion_resolves w n tag :
  1 <= n <= 3 ->
  (forall m, 1 <= m < n -> exists e, answer m = inl e) ->
  answer n = inr tag ->
  let r := run (getCronetLatestVersion E tag_name_of w) in
  r.1 = inr tag /\
  fs r.2 = fs w /\
  requests (trace r.2) = requests (trace w) ++ replicate (Z.to_nat n) CRONET_REPO_API /\
  delays (awaits (getCronetLatestVersion E tag_name_of w))
    = map (fun i => Z.of_nat i * 1000) (seq 1 (Z.to_nat n - 1)).
Proof.
  intros Hn Hfail Hok r. subst r. unfold getCronetLatestVersion.
  destruct (resolver_loop_resolves (Z.to_nat (n - 1)) 3 3 1 None w tag)
    as (tr & Hrun & Hreq & Hdel); [lia|lia|lia| | |].
  - intros m Hm. apply Hfail. lia.
  - by replace (1 + Z.of_nat (Z.to_nat (n - 1))) with n by lia.
  - rewrite Hrun, Hdel. simpl.
    replace (S (Z.to_nat (n - 1))) with (Z.to_nat n) in Hreq by lia.
    replace (Z.to_nat (n - 1)) with (Z.to_nat n - 1)%nat by lia. done.
Qed.

(** X12.  When all three attempts fail, [getCronetLatestVersion] rejects
    with the error that names the three attempts and carries the message of
    the third error, after exactly three requests and the delays 1000 ms and
    2000 ms, and the disk is as it was. *)
Theorem getCronetLatestVersion_exhausted w :
  (forall n, 1 <= n <= 3 -> exists e, answer n = inl e) ->
  exists e3,
    answer 3 = inl e3 /\
    let r := run (getCronetLatestVersion E tag_name_of w) in
    r.1 = inl (mkError ("Failed to fetch cronet-go version after 3 attempts. Last error: "
                        +:+ message e3)) /\
    fs r.2 = fs w /\
    requests (trace r.2) = requests (trace w) ++ replicate 3 CRONET_REPO_API /\
    delays (awaits (getCronetLatestVersion E tag_name_of w)) = [1000; 2000].
Proof.
  intros Hall. unfold getCronetLatestVersion.
  destruct (resolver_loop_exhausts 3 3 1 None w)
    as (last' & tr & Hrun & _ & Hpos & Hreq & Hdel); [lia|lia|exact Hall|].
  destruct Hpos as (e3 & He3 & ->); [done|].
  exists e3. split; [done|]. rewrite Hrun, Hdel. done.
Qed.

End CronetFacts.

Section CronetLibraries.
Context (E : env) (tag_name_of : content -> Error + option string).

Abbreviation index_says n := (index_answer tag_name_of (transport E CRONET_REPO_API n)).

Lemma cronet_task_launches file : launches file.2 (cronet_task E file).
Proof.
  intros w. unfold cronet_task, bind. simpl.
  eexists _, _, _. split; [reflexivity|]. simpl.
  by rewrite !requests_app, app_nil_r.
Qed.

Lemma cronet_tasks_launch files :
  Forall2 launches files.*2 (cronet_task E <$> files).
Proof.
  induction files as [|file files IH]; [constructor|].
  simpl. constructor; [apply cronet_task_launches|exact IH].
Qed.

Lemma tame_cronet_task file w : sat extends any w (cronet_task E file w).
Proof.
  assert (forall lvl text w', sat extends (@any unit) w' (console lvl text w')) as Hlog.
  { intros lvl text w'.
    eapply sat_mono; [|apply fulfils_console; (typeclasses eauto || apply extends_emit)].
    by intros r _. }
  revert w. unfold cronet_task.
  apply tame_bind; [typeclasses eauto|intros w; apply Hlog|intros _].
  apply tame_bind; [typeclasses eauto| |intros _ w; apply Hlog].
  intros w.
  apply tame_downloadFile; [typeclasses eauto|apply extends_fs|apply extends_emit].
Qed.

(** X13.  When the release index cannot be resolved, [downloadCronetLibraries]
    rejects with the error of [getCronetLatestVersion] and does nothing more:
    no library is requested, and the disk is as it was (the resources
    directory is not created). *)
Theorem downloadCronetLibraries_needs_version sched w :
  (forall n, 1 <= n <= 3 -> exists e, index_says n = inl e) ->
  exists e,
    (run (getCronetLatestVersion E tag_name_of w)).1 = inl e /\
    let r := run (downloadCronetLibraries E tag_name_of sched w) in
    r.1 = inl e /\
    fs r.2 = fs w /\
    requests (trace r.2) = requests (trace w) ++ replicate 3 CRONET_REPO_API.
Proof.
  intros Hall. unfold downloadCronetLibraries, bind, getCronetLatestVersion.
  destruct (resolver_loop_exhausts E tag_name_of 3 3 1 None w)
    as (last' & tr & Hrun & _ & _ & Hreq & _); [lia|lia|exact Hall|].
  rewrite run_bind, Hrun. simpl. by eexists.
Qed.

(** X14.  Once the release index is resolved, [downloadCronetLibraries]
    requests the linux library and then the windows library from the release
    named by the tag, whatever the order in which the two downloads then
    proceed.  The tag is used as it came: when the answer of the index has
    no [tag_name], the libraries are requested from the release named
    [undefined]. *)
Theorem downloadCronetLibraries_requests sched w n tag :
  1 <= n <= 3 ->
  (forall m, 1 <= m < n -> exists e, index_says m = inl e) ->
  index_says n = inr tag ->
  (requests (trace w) ++ replicate (Z.to_nat n) CRONET_REPO_API ++
   [ CRONET_RELEASE_URL +:+ default "undefined" tag +:+ "/libcronet-linux-amd64.so";
     CRONET_RELEASE_URL +:+ default "undefined" tag +:+ "/libcronet-windows-amd64.dll" ])
  `prefix_of` requests (trace (run (downloadCronetLibraries E tag_name_of sched w)).2).
Proof.
  intros Hn Hfail Hok.
  change (requests (trace w) ++ replicate (Z.to_nat n) CRONET_REPO_API
            ++ (cronetFiles tag).*2
          `prefix_of`
          requests (trace (run (downloadCronetLibraries E tag_name_of sched w)).2)).
  unfold downloadCronetLibraries, bind at 1, getCronetLatestVersion.
  destruct (resolver_loop_resolves E tag_name_of (Z.to_nat (n - 1)) 3 3 1 None w tag)
    as (tr & Hrun & Hreq & _); [lia|lia|lia| | |].
  { intros m Hm. apply Hfail. lia. }
  { by replace (1 + Z.of_nat (Z.to_nat (n - 1))) with n by lia. }
  replace (S (Z.to_nat (n - 1))) with (Z.to_nat n) in Hreq by lia.
  rewrite run_bind, Hrun. cbv beta iota.
  generalize (cronetFiles tag). intros files.
  unfold bind, console, emit. simpl.
  match goal with |- context [ensure_dir ?d ?w0] =>
    destruct (ensure_dir_settles d w0) as (m & Hm); set (w1 := w0) in * end.
  rewrite Hm. simpl.
  set (w2 := World m (trace w1)).
  destruct (start_each_launches _ _ w2 (cronet_tasks_launch files))
    as (ps & w3 & Hps & Hreq3 & _).
  assert (Forall (promise_sat extends any) ps) as Htame.
  { assert (Forall (fun m : async unit => forall w', sat extends any w' (m w'))
              (cronet_task E <$> files)) as Hall.
    { apply Forall_fmap, Forall_forall. intros file _ w'. apply tame_cronet_task. }
    apply (start_each_tame extends) with (w := w2) in Hall.
    rewrite Hps in Hall. simpl in Hall.
    by destruct Hall as (_ & ps' & [= <-] & Hall). }
  unfold w2, w1 in Hps. simpl in Hps. rewrite Hps. simpl.
  assert (sat extends any w3 (Promise_all sched ps w3)) as Hsat
    by (by apply Promise_all_tame; [typeclasses eauto|]).
  apply sat_run in Hsat as [(l & Hl & _) _]; [|typeclasses eauto].
  rewrite Hl, requests_app, Hreq3. simpl.
  rewrite requests_app, app_nil_r, Hreq. simpl.
  rewrite <- !app_assoc. rewrite !app_assoc. by apply prefix_app_r.
Qed.

End CronetLibraries.

(** ** The footer of [Body] *)

Lemma length_append (s1 s2 : string) :
  String.length (s1 +:+ s2) = (String.length s1 + String.length s2)%nat.
Proof. induction s1 as [|c s1 IH]; simpl; [done|]. by rewrite IH. Qed.

(** X15.  For a selected subscription the footer has a blank traffic line
    exactly when the subscription is a local file (its expiry is the
    sentinel 32503680000000), whatever [bytes] renders, and then the expiry
    line is the local-file label, whatever the traffic figures are; a
    subscription that never expires is not taken for a local file. *)
Theorem footer_blank_iff_local_file t bytes toLocaleDateString (s : Subscription) :
  exists traffic expiry,
    footer t bytes toLocaleDateString (Some s) = Some (traffic, expiry) /\
    (traffic = nbsp <-> expire_time s = 32503680000000) /\
    (expire_time s = 32503680000000 -> expiry = t "local_file_no_expire") /\
    (expire_time s = 0 ->
     traffic = bytes (used_traffic s) +:+ " / " +:+ bytes (total_traffic s) /\
     expiry = t "never_expires").
Proof.
  unfold footer, trafficDetails, isLocalFile, formatDate.
  destruct (Z.eqb_spec (expire_time s) 32503680000000) as [Hlocal|Hother]; simpl.
  - eexists _, _. split; [reflexivity|]. split; [done|]. split; [done|].
    intros Hzero. rewrite Hzero in Hlocal. discriminate.
  - set (details := bytes (used_traffic s) +:+ " / " +:+ bytes (total_traffic s)).
    assert (3 <= String.length details)%nat as Hlen.
    { unfold details. rewrite !length_append. simpl. lia. }
    exists details, (if expire_time s =? 0 then t "never_expires"
                     else t "expired_at" +:+ " " +:+ toLocaleDateString (expire_time s)).
    split; [|split; [|split]].
    + destruct details; [simpl in Hlen; lia|done].
    + split; [|done]. intros Heq. rewrite Heq in Hlen. simpl in Hlen. lia.
    + done.
    + intros ->. done.
Qed.

(** ** Concrete instances *)

Lemma flaky_fails_before_third url n : 1 <= n < 3 -> fails flaky url n.
Proof.
  intros Hn. assert (n = 1 \/ n = 2) as [->| ->] by lia; unfold fails; simpl; by eexists.
Qed.

Lemma index_refused n :
  exists e, index_answer tag_name_reader (transport archive_unreachable CRONET_REPO_API n)
            = inl e.
Proof. by exists refused. Qed.


Lemma downloadFile_touches_only_destination_witness :
  ["src-tauri"; "resources"; "b.db"] <> ["out.bin"] /\
  fs (run (downloadFile archive_unreachable unreachable_url ["out.bin"] 3 installed)).2
    !! ["src-tauri"; "resources"; "b.db"] = Some (File "SQLite").
Proof.
  split; [discriminate|].
  rewrite (downloadFile_touches_only_destination archive_unreachable unreachable_url
             ["out.bin"] 3 installed ["src-tauri"; "resources"; "b.db"]);
    [reflexivity|discriminate].
Defined.

Lemma embeddingExternalBinaries_installs_witness :
  let r := run (embeddingExternalBinaries flaky linux amd64 "" "x86_64-unknown-linux-gnu"
                  linux_installed) in
  r.1 = inr tt /\
  fs r.2 !! targetPath_of "x86_64-unknown-linux-gnu" "" = Some (File "ELF") /\
  (forall p, tmpDir_of flaky linux amd64 `prefix_of` p -> fs r.2 !! p = None).
Proof.
  apply (embeddingExternalBinaries_installs flaky linux amd64 "" "x86_64-unknown-linux-gnu"
           linux_installed 3 (Unpacked sing_box_tree None) (File "ELF")).
  - lia.
  - intros m Hm. by apply flaky_fails_before_third.
  - reflexivity.
  - reflexivity.
  - reflexivity.
  - apply (bool_decide_unpack _). by vm_compute.
  - apply (bool_decide_unpack _). by vm_compute.
Defined.

Lemma embeddingExternalBinaries_failure_keeps_installed_witness :
  fs linux_installed !! targetPath_of "x86_64-unknown-linux-gnu" "" = Some (File "ELF-OLD") /\
  let r := run (embeddingExternalBinaries archive_corrupt linux amd64 ""
                  "x86_64-unknown-linux-gnu" linux_installed) in
  r.1 = inl (mkError "TAR_BAD_ARCHIVE: Unrecognized archive format") /\
  fs r.2 !! targetPath_of "x86_64-unknown-linux-gnu" "" = Some (File "ELF-OLD").
Proof.
  split; [by vm_compute|]. intros r.
  assert (r.1 = inl (mkError "TAR_BAD_ARCHIVE: Unrecognized archive format")) as Hr
    by (by vm_compute).
  split; [exact Hr|].
  apply (embeddingExternalBinaries_failure_keeps_installed archive_corrupt linux amd64 ""
           "x86_64-unknown-linux-gnu" linux_installed (File "ELF-OLD")
           (mkError "TAR_BAD_ARCHIVE: Unrecognized archive format"));
    [by vm_compute|exact Hr].
Defined.

Lemma archive_library_by_platform_witness :
  embeddingExternalBinaries (with_untar flaky (fun _ => Unpacked [] None)) windows amd64
    ".exe" "x86_64-pc-windows-msvc"
  = embeddingExternalBinaries flaky windows amd64 ".exe" "x86_64-pc-windows-msvc" /\
  embeddingExternalBinaries (with_unzip flaky (fun _ => Unpacked sing_box_tree None)) linux
    amd64 "" "x86_64-unknown-linux-gnu"
  = embeddingExternalBinaries flaky linux amd64 "" "x86_64-unknown-linux-gnu".
Proof.
  split.
  - apply (proj1 (archive_library_by_platform flaky windows amd64 ".exe"
                    "x86_64-pc-windows-msvc" (fun _ => Unpacked [] None))).
    reflexivity.
  - apply (proj2 (archive_library_by_platform flaky linux amd64 ""
                    "x86_64-unknown-linux-gnu" (fun _ => Unpacked sing_box_tree None))).
    discriminate.
Defined.

Lemma all_tasks_launched_up_front_witness :
  (SING_BOX_VERSION flaky ∉ SkipVersionList) /\
  requests (trace (parked_world
                     (script_over flaky RUST_TARGET_TRIPLES dbFiles binaries_first
                        empty_disk)))
  = requests (trace empty_disk) ++ matrix_urls flaky RUST_TARGET_TRIPLES ++ dbFiles.*2.
Proof.
  assert (SING_BOX_VERSION flaky ∉ SkipVersionList) as Hrun.
  { intros Hin. apply list_elem_of_singleton in Hin. discriminate. }
  split; [exact Hrun|].
  exact (all_tasks_launched_up_front flaky RUST_TARGET_TRIPLES dbFiles binaries_first
           empty_disk Hrun).
Defined.

Lemma script_confined_witness :
  ~ inside archive_unreachable ["out.bin"] /\
  fs installed !! ["out.bin"] = Some (File "OLD") /\
  fs (execute (script_over archive_unreachable one_target one_asset binaries_first)
        installed).2 !! ["out.bin"] = Some (File "OLD").
Proof.
  assert (~ inside archive_unreachable ["out.bin"]) as Hout.
  { intros [[k Hk]|[k Hk]]; discriminate. }
  split; [exact Hout|]. split; [by vm_compute|].
  apply (script_confined archive_unreachable one_target one_asset binaries_first installed
           ["out.bin"] (File "OLD") Hout).
  by vm_compute.
Defined.

Lemma downloadDatabaseFiles_outcome_witness :
  sat unconstrained fulfils empty_disk
    (downloadDatabaseFiles_over flaky dbFiles [1%nat; 0%nat] empty_disk) /\
  sat unconstrained rejects installed
    (downloadDatabaseFiles_over archive_unreachable
       [("a.db", asset_url); ("b.db", unreachable_url)] [] installed).
Proof.
  split.
  - apply (downloadDatabaseFiles_outcome flaky dbFiles [1%nat; 0%nat] empty_disk).
    intros dbFile _. exists 3. split; [lia|reflexivity].
  - apply (downloadDatabaseFiles_outcome archive_unreachable
             [("a.db", asset_url); ("b.db", unreachable_url)] [] installed).
    exists ("b.db", unreachable_url). split.
    + apply list_elem_of_further, list_elem_of_here.
    + intros n _. by apply unreachable_fails.
Defined.

Lemma getCronetLatestVersion_resolves_witness :
  let r := run (getCronetLatestVersion (index_serving (release_record "v143.0.7499.109-2"))
                  tag_name_reader installed) in
  r.1 = inr (Some "v143.0.7499.109-2") /\
  fs r.2 = fs installed /\
  requests (trace r.2) = requests (trace installed) ++ replicate (Z.to_nat 2) CRONET_REPO_API /\
  delays (awaits (getCronetLatestVersion (index_serving (release_record "v143.0.7499.109-2"))
                    tag_name_reader installed))
    = map (fun i => Z.of_nat i * 1000) (seq 1 (Z.to_nat 2 - 1)).
Proof.
  apply (getCronetLatestVersion_resolves
           (index_serving (release_record "v143.0.7499.109-2")) tag_name_reader installed 2
           (Some "v143.0.7499.109-2")).
  - lia.
  - intros m Hm. assert (m = 1) as -> by lia. by eexists.
  - reflexivity.
Defined.

Lemma getCronetLatestVersion_exhausted_witness :
  exists e3,
    index_answer tag_name_reader (transport archive_unreachable CRONET_REPO_API 3) = inl e3 /\
    let r := run (getCronetLatestVersion archive_unreachable tag_name_reader installed) in
    r.1 = inl (mkError ("Failed to fetch cronet-go version after 3 attempts. Last error: "
                        +:+ message e3)) /\
    fs r.2 = fs installed /\
    requests (trace r.2) = requests (trace installed) ++ replicate 3 CRONET_REPO_API /\
    delays (awaits (getCronetLatestVersion archive_unreachable tag_name_reader installed))
      = [1000; 2000].
Proof.
  apply (getCronetLatestVersion_exhausted archive_unreachable tag_name_reader installed).
  intros n _. apply index_refused.
Defined.

Lemma downloadCronetLibraries_needs_version_witness :
  exists e,
    (run (getCronetLatestVersion archive_unreachable tag_name_reader installed)).1 = inl e /\
    let r := run (downloadCronetLibraries archive_unreachable tag_name_reader [] installed) in
    r.1 = inl e /\
    fs r.2 = fs installed /\
    requests (trace r.2) = requests (trace installed) ++ replicate 3 CRONET_REPO_API.
Proof.
  apply (downloadCronetLibraries_needs_version archive_unreachable tag_name_reader []
           installed).
  intros n _. apply index_refused.
Defined.

Lemma downloadCronetLibraries_requests_witness :
  (requests (trace empty_disk) ++ replicate (Z.to_nat 2) CRONET_REPO_API ++
   [ CRONET_RELEASE_URL +:+ "undefined" +:+ "/libcronet-linux-amd64.so";
     CRONET_RELEASE_URL +:+ "undefined" +:+ "/libcronet-windows-amd64.dll" ])
  `prefix_of`
  requests (trace (run (downloadCronetLibraries (index_serving "{}") tag_name_reader
                          [1%nat] empty_disk)).2).
Proof.
  apply (downloadCronetLibraries_requests (index_serving "{}") tag_name_reader [1%nat]
           empty_disk 2 None).
  - lia.
  - intros m Hm. assert (m = 1) as -> by lia. by eexists.
  - reflexivity.
Defined.
